(** * auto-subtitle: the subtitle pipeline of [auto_subtitle/cli.py]

  A shallow embedding of the command-line pipeline (audio extraction,
  transcription, subtitle writing, composition) together with the
  properties its specification states about it.

  Python strings are modelled as Rocq strings (sequences of 8-bit
  characters), the insertion-ordered dictionaries the pipeline iterates
  over as association lists updated in place, the lookup table [COLORS]
  and the file system as finite maps.  The external engines (ffmpeg,
  whisper) are parameters of the model: each call either returns or
  raises. *)

From Stdlib Require Import String Ascii List NArith ZArith Lia Bool.
From Stdlib Require Import DecimalString DecimalN.
From stdpp Require Import gmap strings list fin_maps.

Local Open Scope N_scope.

(* ===================================================================== *)
(** * Python built-ins used by the pipeline *)
(* ===================================================================== *)

Module Py.

(** The line feed, and the one-character strings the code tests for. *)
Definition LF : ascii := "010"%char.
Definition nl : string := String LF "".

(** [str.lower()].  A string stands for its UTF-8 bytes.  [A]..[Z] go to
    [a]..[z]; the Kelvin sign U+212A (bytes 226 132 170) goes to [k], the
    one character outside ASCII whose lower case is an ASCII string; every
    other byte is left as it is.  The remaining characters that [lower()]
    changes are outside ASCII and stay outside, so that they come out
    different from every ASCII string, here as in Python. *)
Definition lower_char (c : ascii) : ascii :=
  let n := N_of_ascii c in
  if (65 <=? n) && (n <=? 90) then ascii_of_N (n + 32) else c.

Fixpoint lower (s : string) : string :=
  match s with
  | EmptyString => EmptyString
  | String "226" (String "132" (String "170" s')) => String "k" (lower s')
  | String c s' => String (lower_char c) (lower s')
  end.

(** [s.startswith(p)] and [s.endswith(p)]. *)
Definition startswith (s p : string) : bool := String.prefix p s.

Fixpoint endswith (s p : string) : bool :=
  String.eqb s p ||
  match s with
  | EmptyString => false
  | String _ s' => endswith s' p
  end.

(** [c in s] for a character [c]. *)
Fixpoint has_char (c : ascii) (s : string) : bool :=
  match s with
  | EmptyString => false
  | String d s' => Ascii.eqb c d || has_char c s'
  end.

(** [os.path.join(a, b)] of [posixpath], for two components: an absolute
    [b] replaces [a]; otherwise one separator stands between them. *)
Definition path_join (a b : string) : string :=
  if startswith b "/" then b
  else if String.eqb a "" || endswith a "/" then a +:+ b
  else a +:+ "/" +:+ b.

(** [os.path.basename(p)]: what follows the last separator. *)
Fixpoint basename (p : string) : string :=
  match p with
  | EmptyString => EmptyString
  | String c p' =>
      if has_char "/" p' then basename p'
      else if Ascii.eqb c "/" then p' else p
  end.

(** [os.path.splitext(p)[0]] for a [p] without separator: [p] up to its
    last dot, unless only dots come before that dot. *)
Fixpoint upto_last_dot (p : string) : string :=
  match p with
  | EmptyString => EmptyString
  | String c p' =>
      if has_char "." p' then String c (upto_last_dot p')
      else if Ascii.eqb c "." then EmptyString else p
  end.

Fixpoint all_dots (p : string) : bool :=
  match p with
  | EmptyString => true
  | String c p' => Ascii.eqb c "." && all_dots p'
  end.

Definition splitext_root (p : string) : string :=
  let r := upto_last_dot p in
  if all_dots r then p else r.

(** [str(n)] for a natural number, in decimal. *)
Definition str_of_N (n : N) : string :=
  NilZero.string_of_uint (N.to_uint n).

(** [f"{n:0{w}d}"]: decimal, padded with zeros on the left up to width
    [w]; a longer number is printed in full. *)
Fixpoint zeros (k : nat) : string :=
  match k with
  | O => EmptyString
  | S k' => String "0" (zeros k')
  end.

Definition zfill (w : nat) (n : N) : string :=
  let d := str_of_N n in
  zeros (w - String.length d) +:+ d.

(** [int(s)] for a string of decimal digits; [None] is [ValueError]. *)
Definition N_of_str (s : string) : option N :=
  option_map N.of_uint (NilZero.uint_of_string s).

(** [s.split(sep)] for a one-character separator, and [sep.join(l)]. *)
Fixpoint split (sep : ascii) (s : string) : list string :=
  match s with
  | EmptyString => [EmptyString]
  | String c s' =>
      if Ascii.eqb c sep then EmptyString :: split sep s'
      else match split sep s' with
           | [] => [String c EmptyString]
           | h :: t => String c h :: t
           end
  end.

Fixpoint join (sep : string) (l : list string) : string :=
  match l with
  | [] => EmptyString
  | [x] => x
  | x :: l' => x +:+ sep +:+ join sep l'
  end.

(** An insertion-ordered dictionary with string keys: [d[k] = v] keeps the
    position of a key that is already there and appends a new one;
    [d.items()] is the list itself. *)
Definition dict (V : Type) : Type := list (string * V).

Fixpoint dict_set {V} (d : dict V) (k : string) (v : V) : dict V :=
  match d with
  | [] => [(k, v)]
  | (k', v') :: d' =>
      if String.eqb k' k then (k, v) :: d' else (k', v') :: dict_set d' k v
  end.

Fixpoint dict_get {V} (d : dict V) (k : string) : option V :=
  match d with
  | [] => None
  | (k', v') :: d' => if String.eqb k' k then Some v' else dict_get d' k
  end.

Definition dict_keys {V} (d : dict V) : list string := map fst d.

End Py.

(* ===================================================================== *)
(** * [utils]: the helpers [cli.py] imports *)
(* ===================================================================== *)

Module Utils.
Import Py.

(** Modelled from the spec: [utils.filename] is imported by [cli.py] but is
    not among the sources.  The specification (section 3) describes the
    base name of a video as its path minus directory and extension; this is
    [os.path.basename] followed by [os.path.splitext]. *)
Definition filename (path : string) : string :=
  splitext_root (basename path).

(** Modelled from the spec: a point in time of the recording with
    sub-second precision (section 3), in seconds: the non-negative fraction
    [t_num / t_den], which covers every non-negative floating-point
    value. *)
Record time : Type := Time { t_num : N; t_den : positive }.

(** Modelled from the spec: a transcript segment as the recognition engine
    returns it (section 3: start time, end time, text), with the identifier
    section 4.4 speaks of. *)
Record segment : Type := Segment {
  seg_id : N;
  seg_start : time;
  seg_end : time;
  seg_text : string
}.

(** Modelled from the spec: the whole milliseconds nearest to [t], the
    rounding section 8 allows for (a half rounds up here; the specification
    leaves ties open). *)
Definition milliseconds (t : time) : N :=
  (2000 * t_num t + Npos (t_den t)) / (2 * Npos (t_den t)).

(** Modelled from the spec: the timestamp of section 4.4, [HH:MM:SS,mmm],
    hours, minutes and seconds zero-padded to two digits, milliseconds to
    three, a comma before the milliseconds. *)
Definition format_ms (ms : N) : string :=
  let hours := ms / 3600000 in
  let ms := ms mod 3600000 in
  let minutes := ms / 60000 in
  let ms := ms mod 60000 in
  let seconds := ms / 1000 in
  let ms := ms mod 1000 in
  zfill 2 hours +:+ ":" +:+ zfill 2 minutes +:+ ":" +:+ zfill 2 seconds
    +:+ "," +:+ zfill 3 ms.

Definition format_timestamp (t : time) : string :=
  format_ms (milliseconds t).

(** Modelled from the spec: [utils.write_srt] is imported by [cli.py] but
    is not among the sources.  Section 4.4: for each segment a block made
    of the 1-based position, the timestamp line, the text and a blank
    line.  [srt_block i s] is what is printed for the segment at position
    [i]; [write_srt_from] is the loop over the enumerated segments, [file]
    the text written so far. *)
Definition srt_block (i : N) (s : segment) : string :=
  str_of_N i +:+ nl
    +:+ format_timestamp (seg_start s) +:+ " --> "
    +:+ format_timestamp (seg_end s) +:+ nl
    +:+ seg_text s +:+ nl
    +:+ nl.

Fixpoint write_srt_from (i : N) (segments : list segment) (file : string)
  : string :=
  match segments with
  | [] => file
  | s :: rest => write_srt_from (i + 1) rest (file +:+ srt_block i s)
  end.

Definition write_srt (segments : list segment) : string :=
  write_srt_from 1 segments "".

End Utils.

(* ===================================================================== *)
(** * [cli.py] *)
(* ===================================================================== *)

Module Cli.
Import Py Utils.

(** ** The world the pipeline acts on *)

(** The keyword arguments [main] hands to [model.transcribe]: what is left
    of [args] once the other entries have been popped.  [language] is
    absent unless one of the two branches of [main] sets it. *)
Record options : Type := Options {
  opt_verbose : bool;
  opt_task : string;
  opt_language : option string
}.

(** What an observer of a run sees, in order.  The progress messages that
    are printed are left out; the warning is kept.  [Makedirs] and
    [LoadModel] stand for [os.makedirs(output_dir, exist_ok=True)] and
    [whisper.load_model(model_name)], which are taken to return. *)
Inductive event : Type :=
| Warn (message : string)
| Makedirs (dir : string)
| LoadModel (model_name : string)
| Extract (video audio_path : string)
| Transcribe (audio_path : string) (opts : options)
| WriteSrt (video srt_path : string)
| Compose (video srt_path style out_path : string).

(** The exceptions of the external engines, named as in section 7 of the
    specification: [ffmpeg.Error] out of the extraction, whatever
    [model.transcribe] raises, [ffmpeg.Error] out of the composition. *)
Inductive exn : Type :=
| ExtractionError (video : string)
| TranscriptionError (audio_path : string)
| ComposeError (video : string).

(** Files are byte strings stored under their path. *)
Record world : Type := World {
  fs : gmap string string;
  log : list event
}.

(** The external engines.  Each reads the file system it is run on and
    returns what it produces, or [None] when it raises. *)
Record engine : Type := Engine {
  gettempdir : string;
  ffmpeg_audio : gmap string string -> string -> option string;
  whisper_transcribe :
    gmap string string -> string -> string -> options -> option (list segment);
  ffmpeg_subtitles :
    gmap string string -> string -> string -> string -> option string
}.

(** ** Statements: state passing with exceptions *)

Inductive result (A : Type) : Type :=
| Return (a : A)
| Raise (e : exn).
Arguments Return {A} a.
Arguments Raise {A} e.

Definition M (A : Type) : Type := world -> result A * world.

Definition ret {A} (a : A) : M A := fun w => (Return a, w).

Definition bind {A B} (m : M A) (k : A -> M B) : M B :=
  fun w =>
    match m w with
    | (Return a, w') => k a w'
    | (Raise e, w') => (Raise e, w')
    end.

Definition raise {A} (e : exn) : M A := fun w => (Raise e, w).

Definition emit (e : event) : M unit :=
  fun w => (Return tt, World (fs w) (log w ++ [e])).

Definition read_fs : M (gmap string string) := fun w => (Return (fs w), w).

Definition write_file (path data : string) : M unit :=
  fun w => (Return tt, World (<[path := data]> (fs w)) (log w)).

Declare Scope cli_scope.
Delimit Scope cli_scope with cli.
Notation "x <- m ;; k" := (bind m (fun x => k))
  (at level 100, m at next level, right associativity) : cli_scope.
Notation "m ;; k" := (bind m (fun _ => k))
  (at level 100, right associativity) : cli_scope.
Local Open Scope cli_scope.

(** [for x in l: body], threading the local variables [s] of the loop. *)
Fixpoint for_each {A S} (l : list A) (body : A -> S -> M S) (s : S) : M S :=
  match l with
  | [] => ret s
  | x :: l' => s' <- body x s ;; for_each l' body s'
  end.

(** ** Calls into the engines *)

(** [ffmpeg.input(path).output(output_path, acodec=..., ac=1, ar=...)
    .run(quiet=True, overwrite_output=True)] *)
Definition run_extract (E : engine) (path output_path : string) : M unit :=
  emit (Extract path output_path) ;;
  files <- read_fs ;;
  match ffmpeg_audio E files path with
  | Some wav => write_file output_path wav
  | None => raise (ExtractionError path)
  end.

(** [model.transcribe(audio_path, **args)["segments"]] *)
Definition run_transcribe (E : engine) (model_name audio_path : string)
    (args : options) : M (list segment) :=
  emit (Transcribe audio_path args) ;;
  files <- read_fs ;;
  match whisper_transcribe E files model_name audio_path args with
  | Some segments => ret segments
  | None => raise (TranscriptionError audio_path)
  end.

(** [ffmpeg.concat(video.filter('subtitles', srt_path, force_style=...),
    audio, v=1, a=1).output(out_path).run(quiet=True,
    overwrite_output=True)] *)
Definition run_compose (E : engine) (path srt_path style out_path : string)
    : M unit :=
  emit (Compose path srt_path style out_path) ;;
  files <- read_fs ;;
  match ffmpeg_subtitles E files path srt_path style with
  | Some mp4 => write_file out_path mp4
  | None => raise (ComposeError path)
  end.

(** ** The program *)

Definition COLORS : gmap string string :=
  list_to_map
    [ ("black", "&H000000");
      ("white", "&HFFFFFF");
      ("red", "&HFF0000");
      ("green", "&H00FF00");
      ("blue", "&H0000FF");
      ("yellow", "&HFFFF00");
      ("cyan", "&H00FFFF");
      ("magenta", "&HFF00FF") ].

(** The parsed command line, [parser.parse_args()]. *)
Record arguments : Type := Namespace {
  video : list string;
  model : string;
  output_dir : string;
  output_srt : bool;
  srt_only : bool;
  verbose : bool;
  task : string;
  language : string;
  color : string;
  border_style : Z;
  font_name : string;
  font_size : Z
}.

(** [str(n)] for an integer. *)
Definition str_of_Z (n : Z) : string :=
  NilZero.string_of_int (Z.to_int n).

(** Lines 60 and 66: the colour handed to the composition. *)
Definition resolve_color (color_name : string) : string :=
  default "&H00FF00" (COLORS !! lower color_name).

(** The [force_style] argument of line 96. *)
Definition force_style (font_name : string) (font_size : Z)
    (color : string) (border_style : Z) : string :=
  "FontName=" +:+ font_name +:+ ",FontSize=" +:+ str_of_Z font_size
    +:+ ",OutlineColour=" +:+ color
    +:+ ",BorderStyle=" +:+ str_of_Z border_style.

(** Lines 70 to 76: the [language] entry of [args]. *)
Definition set_language (model_name language : string) : M (option string) :=
  if endswith model_name ".en" then
    emit (Warn (model_name
                  +:+ " is an English-only model, forcing English detection.")) ;;
    ret (Some "en")
  else if negb (String.eqb language "auto") then ret (Some language)
  else ret None.

Definition get_audio (E : engine) (paths : list string) : M (dict string) :=
  let temp_dir := gettempdir E in
  for_each paths
    (fun path audio_paths =>
       let output_path := path_join temp_dir (filename path +:+ ".wav") in
       run_extract E path output_path ;;
       ret (dict_set audio_paths path output_path))
    [].

(** [open(srt_path, "w", encoding="utf-8")] is taken to succeed: it leaves
    at [srt_path] exactly what [write_srt] prints.  The two calls of
    [warnings.filterwarnings] around the transcription change no result and
    are left out. *)
Definition get_subtitles (E : engine) (audio_paths : dict string)
    (output_srt : bool) (output_dir : string)
    (transcribe : string -> M (list segment)) : M (dict string) :=
  for_each audio_paths
    (fun '(path, audio_path) subtitles_path =>
       let srt_path := if output_srt then output_dir else gettempdir E in
       let srt_path := path_join srt_path (filename path +:+ ".srt") in
       segments <- transcribe audio_path ;;
       emit (WriteSrt path srt_path) ;;
       write_file srt_path (write_srt segments) ;;
       ret (dict_set subtitles_path path srt_path))
    [].

(** Lines 87 to 99: the composition loop. *)
Definition compose_all (E : engine) (output_dir style : string)
    (subtitles : dict string) : M unit :=
  for_each subtitles
    (fun '(path, srt_path) _ =>
       let out_path := path_join output_dir (filename path +:+ ".mp4") in
       run_compose E path srt_path style out_path)
    tt.

(** Lines 54 to 85, then the composition loop.  [os.makedirs] and
    [whisper.load_model] are recorded as the events [Makedirs] and
    [LoadModel] and taken to return, as is the opening of a subtitle file
    in [get_subtitles]: a run stands for an execution in which they do,
    and the calls that may raise are the three calls into the engines. *)
Definition main (E : engine) (a : arguments) : M unit :=
  let model_name := model a in
  let output_dir := output_dir a in
  let output_srt := output_srt a in
  let srt_only := srt_only a in
  let language := language a in
  let color_name := lower (color a) in
  let border_style := border_style a in
  let font_name := font_name a in
  let font_size := font_size a in
  let color := default "&H00FF00" (COLORS !! color_name) in
  emit (Makedirs output_dir) ;;
  lang <- set_language model_name language ;;
  let args := Options (verbose a) (task a) lang in
  emit (LoadModel model_name) ;;
  audios <- get_audio E (video a) ;;
  subtitles <-
    get_subtitles E audios (output_srt || srt_only) output_dir
      (fun audio_path => run_transcribe E model_name audio_path args) ;;
  if srt_only then ret tt
  else
    compose_all E output_dir
      (force_style font_name font_size color border_style) subtitles.

(** A run from a given file system; its result and the world it leaves. *)
Definition run {A} (m : M A) (files : gmap string string) : result A * world :=
  m (World files []).

End Cli.

(* ===================================================================== *)
(** * A reader of the subtitle format *)
(* ===================================================================== *)

(** Section 8 of the specification speaks of a conformant reader of the
    format; the repository has none.  This is the reader the round trip is
    stated with: it takes the file line by line, skips empty lines between
    blocks, wants a line of digits, then a timing line, and takes the lines
    up to the next empty one as the text. *)

Module Srt.
Import Py.

(** A cue as a reader sees it: times in whole milliseconds. *)
Record cue : Type := Cue {
  cue_start : N;
  cue_end : N;
  cue_text : string
}.

Definition is_digit (c : ascii) : bool :=
  let n := N_of_ascii c in (48 <=? n) && (n <=? 57).

Fixpoint all_digits (s : string) : bool :=
  match s with
  | EmptyString => true
  | String c s' => is_digit c && all_digits s'
  end.

(** A field of a timestamp: decimal digits, [w] of them ([exact]) or at
    least [w]. *)
Definition read_field (exact : bool) (w : nat) (s : string) : option N :=
  let n := String.length s in
  if (if exact then Nat.eqb n w else Nat.leb w n) && all_digits s
  then N_of_str s else None.

(** [HH:MM:SS,mmm] to milliseconds. *)
Definition read_timestamp (s : string) : option N :=
  match split ":" s with
  | [hh; mm; rest] =>
      match split "," rest with
      | [ss; mmm] =>
          match read_field false 2 hh, read_field true 2 mm,
                read_field true 2 ss, read_field true 3 mmm with
          | Some h, Some m, Some sec, Some ms =>
              if (m <? 60) && (sec <? 60)
              then Some (((h * 60 + m) * 60 + sec) * 1000 + ms)
              else None
          | _, _, _, _ => None
          end
      | _ => None
      end
  | _ => None
  end.

(** The timing line [start --> end]. *)
Definition read_timing (line : string) : option (N * N) :=
  match split " " line with
  | [a; arrow; b] =>
      if String.eqb arrow "-->" then
        match read_timestamp a, read_timestamp b with
        | Some s, Some e => Some (s, e)
        | _, _ => None
        end
      else None
  | _ => None
  end.

(** Where the reader is in a file: between blocks, after the number of a
    block, or inside its text ([text]: the lines read so far, last one
    first). *)
Inductive state : Type :=
| Idle
| Numbered
| Timed (start stop : N) (text : list string).

Definition close (start stop : N) (text : list string) : cue :=
  Cue start stop (join nl (rev text)).

Fixpoint read_lines (st : state) (lines : list string) : option (list cue) :=
  match lines with
  | [] =>
      match st with
      | Idle => Some []
      | Numbered => None
      | Timed s e text => Some [close s e text]
      end
  | l :: lines' =>
      match st with
      | Idle =>
          if String.eqb l "" then read_lines Idle lines'
          else if all_digits l then read_lines Numbered lines' else None
      | Numbered =>
          match read_timing l with
          | Some (s, e) => read_lines (Timed s e []) lines'
          | None => None
          end
      | Timed s e text =>
          if String.eqb l ""
          then option_map (cons (close s e text)) (read_lines Idle lines')
          else read_lines (Timed s e (l :: text)) lines'
      end
  end.

Definition read_srt (file : string) : option (list cue) :=
  read_lines Idle (split LF file).

End Srt.

(* ===================================================================== *)
(** * Vocabulary of the properties *)
(* ===================================================================== *)

Module Contract.
Import Py Utils Cli Srt.

(** ** Subtitle files *)

(** The cue a reader should find for a segment: its times to the
    millisecond, its text. *)
Definition cue_of (s : segment) : cue :=
  Cue (milliseconds (seg_start s)) (milliseconds (seg_end s)) (seg_text s).

(** [ms] milliseconds are within one millisecond of the time [t]. *)
Definition within_one_ms (t : time) (ms : N) : Prop :=
  (Z.abs (Z.of_N ms * Zpos (t_den t) - 1000 * Z.of_N (t_num t))
   <= Zpos (t_den t))%Z.

(** The cues are those of the segments, in order: same text, times within
    one millisecond. *)
Definition same_cues (segments : list segment) (cues : list cue) : Prop :=
  Forall2
    (fun s c =>
       cue_text c = seg_text s
       /\ within_one_ms (seg_start s) (cue_start c)
       /\ within_one_ms (seg_end s) (cue_end c))
    segments cues.

(** A text is empty, or none of its lines is. *)
Definition no_empty_line (text : string) : Prop :=
  text = "" \/ Forall (fun l => l <> "") (split LF text).




(** The blocks of the segments, numbered from [i] on. *)
Fixpoint blocks_from (i : N) (segments : list segment) : string :=
  match segments with
  | [] => ""
  | s :: rest => srt_block i s +:+ blocks_from (i + 1) rest
  end.

(** ** Runs *)

(** Two names are the same up to case. *)
Definition caseless_eq (s t : string) : Prop := lower s = lower t.

(** The eight names of the palette. *)
Definition palette : list string :=
  ["black"; "white"; "red"; "green"; "blue"; "yellow"; "cyan"; "magenta"].

(** Every event a statement adds to the log satisfies [P], whatever the
    world it starts from and however it ends; a value it returns satisfies
    [Q]. *)
Definition emits {A} (P : event -> Prop) (Q : A -> Prop) (m : M A) : Prop :=
  forall w, exists evs,
    log (m w).2 = log w ++ evs /\ Forall P evs /\
    match (m w).1 with
    | Return a => Q a
    | Raise _ => True
    end.

Definition any {A} : A -> Prop := fun _ => True.

(** The language of every transcription is English. *)
Definition in_english (e : event) : Prop :=
  match e with
  | Transcribe _ opts => opt_language opts = Some "en"
  | _ => True
  end.

Definition english_only_warning (model_name : string) : event :=
  Warn (model_name +:+ " is an English-only model, forcing English detection.").

(** ** The artifacts of a video *)

Definition audio_path_of (E : engine) (path : string) : string :=
  path_join (gettempdir E) (filename path +:+ ".wav").

Definition srt_path_in (E : engine) (persist : bool) (dir path : string)
  : string :=
  path_join (if persist then dir else gettempdir E) (filename path +:+ ".srt").

Definition srt_path_of (E : engine) (a : arguments) (path : string) : string :=
  srt_path_in E (output_srt a || srt_only a) (output_dir a) path.

Definition out_path_in (dir path : string) : string :=
  path_join dir (filename path +:+ ".mp4").

Definition out_path_of (a : arguments) (path : string) : string :=
  out_path_in (output_dir a) path.

(** The style string [main] composes with. *)
Definition style_of (a : arguments) : string :=
  force_style (font_name a) (font_size a) (resolve_color (color a))
    (border_style a).

(** The keyword arguments of every transcription of a run. *)
Definition language_of (a : arguments) : option string :=
  if endswith (model a) ".en" then Some "en"
  else if negb (String.eqb (language a) "auto") then Some (language a)
  else None.

Definition options_of (a : arguments) : options :=
  Options (verbose a) (task a) (language_of a).

(** What an event of a run of [main] on [a] looks like. *)
Definition expected (E : engine) (a : arguments) (e : event) : Prop :=
  match e with
  | Warn _ => endswith (model a) ".en" = true /\ e = english_only_warning (model a)
  | Makedirs dir => dir = output_dir a
  | LoadModel model_name => model_name = model a
  | Extract p audio => p ∈ video a /\ audio = audio_path_of E p
  | Transcribe audio opts =>
      opts = options_of a /\ exists p, p ∈ video a /\ audio = audio_path_of E p
  | WriteSrt p srt => p ∈ video a /\ srt = srt_path_of E a p
  | Compose p srt style out =>
      srt_only a = false /\ p ∈ video a /\ srt = srt_path_of E a p /\
      style = style_of a /\ out = out_path_of a p
  end.

(** What an entry of the audio dictionary and of the subtitle dictionary of
    a run looks like. *)
Definition audio_entry (E : engine) (a : arguments) : string * string -> Prop :=
  fun '(p, audio) => p ∈ video a /\ audio = audio_path_of E p.

Definition srt_entry (E : engine) (a : arguments) : string * string -> Prop :=
  fun '(p, srt) => p ∈ video a /\ srt = srt_path_of E a p.

(** The dictionaries the phases hand over when every call returns. *)
Definition audio_paths_of (E : engine) (paths : list string)
    (d : dict string) : dict string :=
  fold_left (fun d p => dict_set d p (audio_path_of E p)) paths d.

Definition subtitles_of (E : engine) (persist : bool) (dir : string)
    (audios : dict string) (d : dict string) : dict string :=
  fold_left (fun d '(p, _) => dict_set d p (srt_path_in E persist dir p))
    audios d.

(** The events of each phase. *)
Definition extract_events (E : engine) (paths : list string) : list event :=
  map (fun p => Extract p (audio_path_of E p)) paths.

Definition subtitle_events (E : engine) (persist : bool) (dir : string)
    (opts : options) (audios : dict string) : list event :=
  flat_map
    (fun '(p, audio) =>
       [Transcribe audio opts; WriteSrt p (srt_path_in E persist dir p)])
    audios.

Definition compose_events (dir style : string) (subtitles : dict string)
  : list event :=
  map (fun '(p, srt) => Compose p srt style (out_path_in dir p)) subtitles.

(** What [main] does before the first phase. *)
Definition header (a : arguments) : list event :=
  Makedirs (output_dir a)
    :: (if endswith (model a) ".en" then [english_only_warning (model a)]
        else [])
    ++ [LoadModel (model a)].

Definition audios_of (E : engine) (a : arguments) : dict string :=
  audio_paths_of E (video a) [].

Definition subs_of (E : engine) (a : arguments) : dict string :=
  subtitles_of E (output_srt a || srt_only a) (output_dir a) (audios_of E a) [].

(** [main] from line 79 on. *)
Definition phases (E : engine) (a : arguments) : M unit :=
  (audios <- get_audio E (video a) ;;
   subtitles <-
     get_subtitles E audios (output_srt a || srt_only a) (output_dir a)
       (fun audio_path =>
          run_transcribe E (model a) audio_path (options_of a)) ;;
   if srt_only a then ret tt
   else compose_all E (output_dir a) (style_of a) subtitles)%cli.

(** The log of a run in which every call returns. *)
Definition main_events (E : engine) (a : arguments) : list event :=
  header a
    ++ extract_events E (video a)
    ++ subtitle_events E (output_srt a || srt_only a) (output_dir a)
         (options_of a) (audios_of E a)
    ++ (if srt_only a then []
        else compose_events (output_dir a) (style_of a) (subs_of E a)).

(** The paths such a run writes to. *)
Definition audio_files (E : engine) (a : arguments) : gset string :=
  list_to_set (map (audio_path_of E) (video a)).

Definition srt_files (E : engine) (a : arguments) : gset string :=
  list_to_set (map (fun i => srt_path_of E a i.1) (audios_of E a)).

Definition mp4_files (E : engine) (a : arguments) : gset string :=
  list_to_set (map (fun i => out_path_of a i.1) (subs_of E a)).

Definition written (E : engine) (a : arguments) : gset string :=
  audio_files E a ∪ srt_files E a
    ∪ (if srt_only a then ∅ else mp4_files E a).

(** Tests on events. *)
Definition is_compose (e : event) : bool :=
  match e with
  | Compose _ _ _ _ => true
  | _ => false
  end.

Definition writes_srt_for (p : string) (e : event) : bool :=
  match e with
  | WriteSrt q _ => String.eqb p q
  | _ => false
  end.

(** [e] is a step of the processing of the video [p]. *)
Definition concerns (E : engine) (p : string) (e : event) : bool :=
  match e with
  | Extract q _ => String.eqb p q
  | Transcribe audio _ => String.eqb audio (audio_path_of E p)
  | WriteSrt q _ => String.eqb p q
  | Compose q _ _ _ => String.eqb p q
  | _ => false
  end.

(** Video by video: every step of a video comes before the extraction of
    the audio of any video that follows it in the batch. *)
Definition sequential_per_video (E : engine) (a : arguments)
    (l : list event) : Prop :=
  forall i j p q, (i < j)%nat ->
    video a !! i = Some p -> video a !! j = Some q ->
    forall k k' e,
      l !! k = Some e -> concerns E p e = true ->
      l !! k' = Some (Extract q (audio_path_of E q)) ->
      (k < k')%nat.


(** The bodies of the three loops. *)
Definition audio_body (E : engine) (path : string) (audio_paths : dict string)
  : M (dict string) :=
  (run_extract E path (audio_path_of E path) ;;
   ret (dict_set audio_paths path (audio_path_of E path)))%cli.

Definition subtitle_body (E : engine) (persist : bool) (dir : string)
    (transcribe : string -> M (list segment))
  : string * string -> dict string -> M (dict string) :=
  fun '(path, audio_path) subtitles_path =>
    (segments <- transcribe audio_path ;;
     emit (WriteSrt path (srt_path_in E persist dir path)) ;;
     write_file (srt_path_in E persist dir path) (write_srt segments) ;;
     ret (dict_set subtitles_path path (srt_path_in E persist dir path)))%cli.

Definition compose_body (E : engine) (dir style : string)
  : string * string -> unit -> M unit :=
  fun '(path, srt_path) _ =>
    run_compose E path srt_path style (out_path_in dir path).

End Contract.


(* ===================================================================== *)
(** * Sample runs *)
(* ===================================================================== *)

Module Samples.
Import Py Utils Cli.

(** An engine whose calls all return: the audio of a video is named after
    it, a transcription has one segment quoting the audio it read, a
    composition quotes its inputs. *)
Definition studio : engine :=
  Engine "/tmp"
    (fun _ path => Some ("audio of " +:+ path))
    (fun files _ audio _ =>
       Some [Segment 0 (Time 0 1) (Time 5 2) (default "" (files !! audio))])
    (fun files path srt style =>
       Some (path +:+ " with " +:+ default "" (files !! srt))).


Definition batch (videos : list string) (model_name language : string)
    (output_srt srt_only : bool) : arguments :=
  Namespace videos model_name "out" output_srt srt_only false "transcribe"
    language "green" 3 "Arial" 24.

Definition two_videos : arguments :=
  batch ["a.mp4"; "b.mp4"] "small" "auto" false false.

Definition french_on_english_model : arguments :=
  batch ["a.mp4"] "small.en" "fr" false false.

Definition subtitles_only : arguments :=
  batch ["a.mp4"; "b.mp4"; "a.mp4"] "small" "auto" false true.

(** A segment whose text holds an empty line followed by what looks like a
    block, and the two segments it is mistaken for. *)
Definition second_zero : time := Time 0 1.
Definition second_one : time := Time 1 1.

Definition tricky : segment :=
  Segment 0 second_zero second_one
    ("a" +:+ nl +:+ nl +:+ "2" +:+ nl
         +:+ "00:00:00,000 --> 00:00:01,000" +:+ nl +:+ "b").

Definition plain_a : segment := Segment 0 second_zero second_one "a".
Definition plain_b : segment := Segment 1 second_zero second_one "b".

(** A transcript with fractional times, a text of two lines, identifiers
    that are not positions and a time beyond a hundred hours. *)
Definition talk : list segment :=
  [ Segment 7 (Time 1 3) (Time 5 2) " Hello there.";
    Segment 9 (Time 5 2) (Time 7263 1000) ("Two" +:+ nl +:+ "lines.");
    Segment 4 (Time 3600 1) (Time 360000 1) "" ].

End Samples.

(* ===================================================================== *)
(** * Vocabulary of further properties of [cli.py] *)
(* ===================================================================== *)

Module Behaviour.
Import Py Utils Cli Contract.

(** ** Tests on events *)


Definition is_transcribe (e : event) : bool :=
  match e with
  | Transcribe _ _ => true
  | _ => false
  end.

Definition extracts_of (p : string) (e : event) : bool :=
  match e with
  | Extract q _ => String.eqb p q
  | _ => false
  end.

Definition composes_of (p : string) (e : event) : bool :=
  match e with
  | Compose q _ _ _ => String.eqb p q
  | _ => false
  end.

(** How often [p] occurs in a list of paths. *)
Fixpoint occurrences (p : string) (paths : list string) : nat :=
  match paths with
  | [] => 0
  | q :: paths' =>
      (if String.eqb p q then 1 else 0) + occurrences p paths'
  end.

(** ** Files *)

(** [q] is a path a run on [a] may write to: the audio, the subtitles or
    (unless [srt_only] is set) the composed video of a video of the
    batch. *)
Definition artifact (E : engine) (a : arguments) (q : string) : Prop :=
  exists p, p ∈ video a
            /\ (q = audio_path_of E p
                \/ q = srt_path_of E a p
                \/ (srt_only a = false /\ q = out_path_of a p)).

(** A statement writes to paths in [S] only and removes no file; a value
    it returns satisfies [Q]. *)
Definition frames {A} (S : string -> Prop) (Q : A -> Prop) (m : M A) : Prop :=
  forall w,
    (forall q, ~ S q -> fs (m w).2 !! q = fs w !! q)
    /\ dom (fs w) ⊆ dom (fs (m w).2)
    /\ match (m w).1 with
       | Return x => Q x
       | Raise _ => True
       end.

(** ** Engines *)

(** [E], except that a transcription raises when its audio file is not
    there and a composition raises when its subtitle file is not there. *)
Definition careful (E : engine) : engine :=
  Engine (gettempdir E) (ffmpeg_audio E)
    (fun files model_name audio_path opts =>
       match files !! audio_path with
       | Some _ => whisper_transcribe E files model_name audio_path opts
       | None => None
       end)
    (fun files path srt_path style =>
       match files !! srt_path with
       | Some _ => ffmpeg_subtitles E files path srt_path style
       | None => None
       end).

(** The values of the colour table. *)
Definition color_codes : list string :=
  ["&H000000"; "&HFFFFFF"; "&HFF0000"; "&H00FF00"; "&H0000FF"; "&HFFFF00";
   "&H00FFFF"; "&HFF00FF"].

(** ** Sample runs *)


Definition mute : engine :=
  Engine "/tmp"
    (ffmpeg_audio Samples.studio)
    (fun files model_name audio_path opts =>
       if String.eqb audio_path "/tmp/b.wav" then None
       else whisper_transcribe Samples.studio files model_name audio_path opts)
    (ffmpeg_subtitles Samples.studio).

Definition three_videos : arguments :=
  Samples.batch ["a.mp4"; "b.mp4"; "c.mp4"] "small" "auto" true false.

Definition repeated : arguments :=
  Samples.batch ["a.mp4"; "b.mp4"; "a.mp4"] "medium" "de" false false.

(** A video that lies in the output directory under the name its
    composition is given. *)
Definition in_place : arguments :=
  Samples.batch ["out/a.mp4"] "small" "auto" false false.

End Behaviour.

Import Py Utils Cli Srt Contract Samples.
Local Open Scope cli_scope.
#[local] Set Warnings "-clear-no-such-hyp".

(* ===================================================================== *)
(** * Statements *)
(* ===================================================================== *)

Section Statements.
Context {A B : Type}.

Lemma bind_Return (m : M A) (k : A -> M B) w a w' :
  m w = (Return a, w') -> bind m k w = k a w'.
Proof. intros H. unfold bind. now rewrite H. Qed.

Lemma bind_Raise (m : M A) (k : A -> M B) w e w' :
  m w = (Raise e, w') -> bind m k w = (Raise e, w').
Proof. intros H. unfold bind. now rewrite H. Qed.

Lemma emits_ret P (Q : A -> Prop) a : Q a -> emits P Q (ret a).
Proof.
  intros HQ w. exists []. cbn. rewrite app_nil_r. auto.
Qed.

Lemma emits_raise P (Q : A -> Prop) e : emits P Q (raise e).
Proof.
  intros w. exists []. cbn. rewrite app_nil_r. auto.
Qed.

Lemma emits_bind P (Q : A -> Prop) (R : B -> Prop) (m : M A) (k : A -> M B) :
  emits P Q m -> (forall a, Q a -> emits P R (k a)) -> emits P R (bind m k).
Proof.
  intros Hm Hk w. destruct (Hm w) as (evs & Hlog & HP & HQ).
  unfold bind. destruct (m w) as [[a | e] w1]; cbn in *.
  - destruct (Hk a HQ w1) as (evs' & Hlog' & HP' & HR).
    exists (evs ++ evs'). rewrite Hlog', Hlog, app_assoc.
    split; [ reflexivity | ]. split; [ now apply Forall_app | exact HR ].
  - exists evs. auto.
Qed.

Lemma emits_weaken (P P' : event -> Prop) (Q Q' : A -> Prop) (m : M A) :
  (forall e, P e -> P' e) -> (forall a, Q a -> Q' a) ->
  emits P Q m -> emits P' Q' m.
Proof.
  intros HP HQ Hm w. destruct (Hm w) as (evs & Hlog & HF & Hr).
  exists evs. split; [ exact Hlog | ]. split.
  - eapply Forall_impl; eauto.
  - destruct (m w).1; auto.
Qed.

End Statements.

Lemma emits_emit P e : P e -> emits P any (emit e).
Proof.
  intros HP w. exists [e]. cbn. repeat split. now constructor.
Qed.

Lemma emits_read_fs P : emits P any read_fs.
Proof. intros w. exists []. cbn. rewrite app_nil_r. repeat split. constructor. Qed.

Lemma emits_write_file P path data : emits P any (write_file path data).
Proof. intros w. exists []. cbn. rewrite app_nil_r. repeat split. constructor. Qed.

Lemma emits_for_each {A S} P (I : S -> Prop) (body : A -> S -> M S) l :
  (forall x s, x ∈ l -> I s -> emits P I (body x s)) ->
  forall s, I s -> emits P I (for_each l body s).
Proof.
  induction l as [ | x l IH]; intros Hbody s Hs; cbn.
  - now apply emits_ret.
  - eapply emits_bind.
    + apply Hbody; [ constructor | exact Hs ].
    + intros s' Hs'. apply IH; [ | exact Hs' ].
      intros y t Hy. apply Hbody. now constructor.
Qed.

Lemma emits_run_extract P E path output_path :
  P (Extract path output_path) -> emits P any (run_extract E path output_path).
Proof.
  intros HP. unfold run_extract.
  eapply emits_bind; [ apply emits_emit, HP | intros _ _ ].
  eapply emits_bind; [ apply emits_read_fs | intros files _ ].
  destruct (ffmpeg_audio E files path).
  - apply emits_write_file.
  - apply emits_raise.
Qed.

Lemma emits_run_transcribe P E model_name audio_path args :
  P (Transcribe audio_path args) ->
  emits P any (run_transcribe E model_name audio_path args).
Proof.
  intros HP. unfold run_transcribe.
  eapply emits_bind; [ apply emits_emit, HP | intros _ _ ].
  eapply emits_bind; [ apply emits_read_fs | intros files _ ].
  destruct (whisper_transcribe E files model_name audio_path args).
  - now apply emits_ret.
  - apply emits_raise.
Qed.

Lemma emits_run_compose P E path srt_path style out_path :
  P (Compose path srt_path style out_path) ->
  emits P any (run_compose E path srt_path style out_path).
Proof.
  intros HP. unfold run_compose.
  eapply emits_bind; [ apply emits_emit, HP | intros _ _ ].
  eapply emits_bind; [ apply emits_read_fs | intros files _ ].
  destruct (ffmpeg_subtitles E files path srt_path style).
  - apply emits_write_file.
  - apply emits_raise.
Qed.

Lemma dict_set_Forall {V} (P : string * V -> Prop) (d : dict V) k v :
  Forall P d -> P (k, v) -> Forall P (dict_set d k v).
Proof.
  induction d as [ | [k' v'] d IH]; intros Hd Hk; cbn.
  - now constructor.
  - inversion Hd; subst. destruct (String.eqb k' k); constructor; auto.
Qed.

(** ** Every event of a run is an expected one *)

Section Expected.
Variable E : engine.
Variable a : arguments.

Lemma set_language_emits :
  emits (expected E a) (fun lang => lang = language_of a)
    (set_language (model a) (language a)).
Proof.
  unfold set_language, language_of.
  destruct (endswith (model a) ".en") eqn:Hen.
  - eapply emits_bind; [ apply emits_emit | intros _ _; now apply emits_ret ].
    cbn. now rewrite Hen.
  - destruct (negb (String.eqb (language a) "auto")); now apply emits_ret.
Qed.

Lemma get_audio_emits :
  emits (expected E a) (Forall (audio_entry E a)) (get_audio E (video a)).
Proof.
  unfold get_audio. apply emits_for_each; [ | constructor ].
  intros p d Hp Hd.
  eapply emits_bind; [ apply emits_run_extract | intros _ _ ].
  - cbn. auto.
  - apply emits_ret. apply dict_set_Forall; [ exact Hd | ]. cbn. auto.
Qed.

Lemma get_subtitles_emits audios :
  Forall (audio_entry E a) audios ->
  emits (expected E a) (Forall (srt_entry E a))
    (get_subtitles E audios (output_srt a || srt_only a) (output_dir a)
       (fun audio_path =>
          run_transcribe E (model a) audio_path (options_of a))).
Proof.
  intros Haudios. unfold get_subtitles. apply emits_for_each; [ | constructor ].
  intros [p audio] d Hin Hd.
  apply (proj1 (Forall_forall _ _) Haudios) in Hin. destruct Hin as [Hp ->].
  eapply emits_bind; [ apply emits_run_transcribe | intros segments _ ].
  { cbn. split; [ reflexivity | eauto ]. }
  eapply emits_bind; [ apply emits_emit | intros _ _ ].
  { cbn. auto. }
  eapply emits_bind; [ apply emits_write_file | intros _ _ ].
  apply emits_ret. apply dict_set_Forall; [ exact Hd | ]. cbn. auto.
Qed.

Lemma compose_all_emits subtitles :
  srt_only a = false -> Forall (srt_entry E a) subtitles ->
  emits (expected E a) any
    (compose_all E (output_dir a) (style_of a) subtitles).
Proof.
  intros Hso Hsubs. unfold compose_all.
  apply (emits_for_each _ any); [ | exact I ].
  intros [p srt] [] Hin _.
  apply (proj1 (Forall_forall _ _) Hsubs) in Hin. destruct Hin as [Hp ->].
  apply emits_run_compose. cbn. auto.
Qed.

Lemma main_emits : emits (expected E a) any (main E a).
Proof.
  unfold main.
  eapply emits_bind; [ apply emits_emit; reflexivity | intros _ _ ].
  eapply emits_bind; [ apply set_language_emits | intros lang -> ].
  eapply emits_bind; [ apply emits_emit; reflexivity | intros _ _ ].
  eapply emits_bind; [ apply get_audio_emits | intros audios Haudios ].
  eapply emits_bind; [ apply (get_subtitles_emits audios Haudios) | ].
  intros subtitles Hsubs.
  destruct (srt_only a) eqn:Hso.
  - now apply emits_ret.
  - now apply compose_all_emits.
Qed.

Lemma run_expected files : Forall (expected E a) (log (run (main E a) files).2).
Proof.
  destruct (main_emits (World files [])) as (evs & Hlog & Hevs & _).
  unfold run. rewrite Hlog. exact Hevs.
Qed.

End Expected.

(* ===================================================================== *)
(** * The colour table *)
(* ===================================================================== *)

Lemma COLORS_keys name hex :
  COLORS !! name = Some hex -> name ∈ palette.
Proof.
  intros H. apply elem_of_list_to_map_2 in H.
  unfold palette.
  repeat (apply elem_of_cons in H as [[= -> ->] | H]; [ repeat constructor | ]).
  inversion H.
Qed.

Lemma palette_lower name : name ∈ palette -> lower name = name.
Proof.
  unfold palette. intros H.
  repeat (apply elem_of_cons in H as [-> | H]; [ reflexivity | ]).
  inversion H.
Qed.

Lemma palette_in_COLORS name : name ∈ palette -> is_Some (COLORS !! name).
Proof.
  unfold palette. intros H.
  repeat (apply elem_of_cons in H as [-> | H]; [ vm_compute; eauto | ]).
  inversion H.
Qed.

(** C4: a colour name that is, up to case, one of the eight palette names
    resolves to the entry of that name in [COLORS]; any other string
    resolves to the default green ["&H00FF00"]. The resolver is a total
    function, so it never fails. *)
Theorem resolve_color_total (color_name : string) :
  (forall name, name ∈ palette -> caseless_eq color_name name ->
                COLORS !! name = Some (resolve_color color_name))
  /\ ((forall name, name ∈ palette -> ~ caseless_eq color_name name) ->
      resolve_color color_name = "&H00FF00")
  /\ COLORS !! "black" = Some "&H000000"
  /\ COLORS !! "white" = Some "&HFFFFFF"
  /\ COLORS !! "red" = Some "&HFF0000"
  /\ COLORS !! "green" = Some "&H00FF00"
  /\ COLORS !! "blue" = Some "&H0000FF"
  /\ COLORS !! "yellow" = Some "&HFFFF00"
  /\ COLORS !! "cyan" = Some "&H00FFFF"
  /\ COLORS !! "magenta" = Some "&HFF00FF".
Proof.
  split; [ | split; [ | repeat split; reflexivity ] ].
  - intros name Hin Heq. unfold caseless_eq in Heq.
    rewrite (palette_lower name Hin) in Heq.
    unfold resolve_color. rewrite Heq.
    destruct (palette_in_COLORS name Hin) as [hex ->]. reflexivity.
  - intros Hnot. unfold resolve_color.
    destruct (COLORS !! lower color_name) as [hex | ] eqn:Hl; [ | reflexivity ].
    exfalso. pose proof (COLORS_keys _ _ Hl) as Hin.
    apply (Hnot _ Hin). unfold caseless_eq.
    now rewrite (palette_lower _ Hin).
Qed.

(** C4 at two inputs: a palette name in mixed case, and a name that is not
    in the palette. *)
Lemma resolve_color_total_witness :
  COLORS !! "yellow" = Some (resolve_color "YeLLoW")
  /\ resolve_color "Purple" = "&H00FF00".
Proof.
  destruct (resolve_color_total "YeLLoW") as [Hpal _].
  destruct (resolve_color_total "Purple") as [_ [Hdef _]].
  split.
  - apply Hpal; [ unfold palette; repeat constructor | reflexivity ].
  - apply Hdef. unfold palette. intros name Hin.
    repeat (apply elem_of_cons in Hin as [-> | Hin]; [ discriminate | ]).
    inversion Hin.
Defined.

(* ===================================================================== *)
(** * English-only models *)
(* ===================================================================== *)

Lemma log_grows {A} (m : M A) P Q w :
  emits P Q m -> exists evs, log (m w).2 = log w ++ evs.
Proof. intros H. destruct (H w) as (evs & Hlog & _). eauto. Qed.

Lemma english_only_warned E a w :
  endswith (model a) ".en" = true ->
  english_only_warning (model a) ∈ log (main E a w).2.
Proof.
  intros Hen.
  assert (Hopts : Options (verbose a) (task a) (Some "en") = options_of a).
  { unfold options_of, language_of. now rewrite Hen. }
  unfold main, set_language. rewrite Hen.
  unfold bind at 1. cbn [emit].
  unfold bind at 1. unfold bind at 1. cbn [emit ret].
  rewrite Hopts.
  match goal with
  | |- context [bind ?m ?k ?w'] =>
      destruct (log_grows (bind m k) (expected E a) any w') as [evs Hevs]
  end.
  - eapply emits_bind; [ apply emits_emit; reflexivity | intros _ _ ].
    eapply emits_bind; [ apply get_audio_emits | intros audios Haudios ].
    eapply emits_bind.
    + apply (get_subtitles_emits E a audios Haudios).
    + intros subtitles Hsubs. destruct (srt_only a) eqn:Hso.
      * now apply emits_ret.
      * now apply compose_all_emits.
  - rewrite Hevs. cbn [log]. rewrite !elem_of_app.
    left. right. constructor.
Qed.

(** C3: when the model name ends in [.en], whatever language was requested,
    the language entry handed to the recognition engine is ["en"] in every
    transcription of the run, and the run warns that English is forced. *)
Theorem english_only_forces_english E a files :
  endswith (model a) ".en" = true ->
  language_of a = Some "en"
  /\ english_only_warning (model a) ∈ log (run (main E a) files).2
  /\ Forall in_english (log (run (main E a) files).2).
Proof.
  intros Hen. split; [ | split ].
  - unfold language_of. now rewrite Hen.
  - now apply english_only_warned.
  - eapply Forall_impl; [ apply run_expected | ].
    intros [] He; cbn in *; try exact I.
    destruct He as [-> _]. cbn. unfold language_of. now rewrite Hen.
Qed.

(** C3 at a French request on [small.en]. *)
Lemma english_only_forces_english_witness :
  language_of french_on_english_model = Some "en"
  /\ english_only_warning "small.en"
       ∈ log (run (main studio french_on_english_model) ∅).2
  /\ Forall in_english (log (run (main studio french_on_english_model) ∅).2).
Proof.
  apply (english_only_forces_english studio french_on_english_model ∅).
  reflexivity.
Defined.

(* ===================================================================== *)
(** * The three phases, call by call *)
(* ===================================================================== *)

Lemma run_extract_cases E path output_path w :
  (exists wav,
      ffmpeg_audio E (fs w) path = Some wav /\
      run_extract E path output_path w =
        (Return tt,
         World (<[output_path := wav]> (fs w))
               (log w ++ [Extract path output_path])))
  \/ (ffmpeg_audio E (fs w) path = None /\
      run_extract E path output_path w =
        (Raise (ExtractionError path),
         World (fs w) (log w ++ [Extract path output_path]))).
Proof.
  unfold run_extract, bind, emit, read_fs, write_file, raise. cbn.
  destruct (ffmpeg_audio E (fs w) path) as [wav | ]; eauto.
Qed.

Lemma run_transcribe_cases E model_name audio_path opts w :
  (exists segments,
      whisper_transcribe E (fs w) model_name audio_path opts = Some segments /\
      run_transcribe E model_name audio_path opts w =
        (Return segments,
         World (fs w) (log w ++ [Transcribe audio_path opts])))
  \/ (whisper_transcribe E (fs w) model_name audio_path opts = None /\
      run_transcribe E model_name audio_path opts w =
        (Raise (TranscriptionError audio_path),
         World (fs w) (log w ++ [Transcribe audio_path opts]))).
Proof.
  unfold run_transcribe, bind, emit, read_fs, ret, raise. cbn.
  destruct (whisper_transcribe E (fs w) model_name audio_path opts); eauto.
Qed.

Lemma run_compose_cases E path srt_path style out_path w :
  (exists mp4,
      ffmpeg_subtitles E (fs w) path srt_path style = Some mp4 /\
      run_compose E path srt_path style out_path w =
        (Return tt,
         World (<[out_path := mp4]> (fs w))
               (log w ++ [Compose path srt_path style out_path])))
  \/ (ffmpeg_subtitles E (fs w) path srt_path style = None /\
      run_compose E path srt_path style out_path w =
        (Raise (ComposeError path),
         World (fs w) (log w ++ [Compose path srt_path style out_path]))).
Proof.
  unfold run_compose, bind, emit, read_fs, write_file, raise. cbn.
  destruct (ffmpeg_subtitles E (fs w) path srt_path style); eauto.
Qed.

(** ** Audio extraction *)

Lemma get_audio_loop E paths : get_audio E paths = for_each paths (audio_body E) [].
Proof. reflexivity. Qed.

Lemma audio_loop_Return E paths :
  forall d0 w d w',
    for_each paths (audio_body E) d0 w = (Return d, w') ->
    d = audio_paths_of E paths d0
    /\ log w' = log w ++ extract_events E paths
    /\ dom (fs w') =
       dom (fs w) ∪ list_to_set (map (audio_path_of E) paths).
Proof.
  induction paths as [ | p paths IH]; intros d0 w d w' Hrun; cbn in Hrun.
  - inversion Hrun; subst. cbn. rewrite app_nil_r.
    split; [ reflexivity | ]. split; [ reflexivity | set_solver ].
  - unfold bind at 1, audio_body at 1 in Hrun. unfold bind at 1 in Hrun.
    destruct (run_extract_cases E p (audio_path_of E p) w)
      as [(wav & _ & Heq) | (_ & Heq)]; rewrite Heq in Hrun; cbn in Hrun.
    + apply IH in Hrun. destruct Hrun as (Hd & Hlog & Hdom). cbn [fs log] in *.
      split; [ exact Hd | ]. split.
      * rewrite Hlog. cbn. now rewrite <- app_assoc.
      * rewrite Hdom, dom_insert_L. cbn. set_solver.
    + discriminate.
Qed.

Lemma audio_loop_Raise E paths :
  forall d0 w e w',
    for_each paths (audio_body E) d0 w = (Raise e, w') ->
    exists p, p ∈ paths /\ e = ExtractionError p.
Proof.
  induction paths as [ | p paths IH]; intros d0 w e w' Hrun; cbn in Hrun.
  - discriminate.
  - unfold bind at 1, audio_body at 1 in Hrun. unfold bind at 1 in Hrun.
    destruct (run_extract_cases E p (audio_path_of E p) w)
      as [(wav & _ & Heq) | (_ & Heq)]; rewrite Heq in Hrun; cbn in Hrun.
    + apply IH in Hrun. destruct Hrun as (q & Hq & ->).
      exists q. split; [ now constructor | reflexivity ].
    + inversion Hrun; subst. exists p. split; [ constructor | reflexivity ].
Qed.

(** ** Transcription and subtitle writing *)

Lemma get_subtitles_loop E audios persist dir transcribe :
  get_subtitles E audios persist dir transcribe =
  for_each audios (subtitle_body E persist dir transcribe) [].
Proof. reflexivity. Qed.

Section Subtitles.
Variable E : engine.
Variables (persist : bool) (dir model_name : string) (opts : options).

Lemma subtitle_loop_Return audios :
  forall d0 w d w',
    for_each audios
      (subtitle_body E persist dir
         (fun audio_path => run_transcribe E model_name audio_path opts))
      d0 w = (Return d, w') ->
    d = subtitles_of E persist dir audios d0
    /\ log w' = log w ++ subtitle_events E persist dir opts audios
    /\ dom (fs w') =
       dom (fs w) ∪ list_to_set (map (fun i => srt_path_in E persist dir i.1) audios).
Proof.
  induction audios as [ | [p audio] audios IH]; intros d0 w d w' Hrun;
    cbn in Hrun.
  - inversion Hrun; subst. cbn. rewrite app_nil_r.
    split; [ reflexivity | ]. split; [ reflexivity | set_solver ].
  - unfold bind at 1, subtitle_body at 1 in Hrun.
    unfold bind at 1 in Hrun.
    destruct (run_transcribe_cases E model_name audio opts w)
      as [(segments & _ & Heq) | (_ & Heq)]; rewrite Heq in Hrun.
    + unfold bind, emit, write_file, ret in Hrun. cbn in Hrun.
      apply IH in Hrun. destruct Hrun as (Hd & Hlog & Hdom). cbn [fs log] in *.
      split; [ exact Hd | ]. split.
      * rewrite Hlog. cbn. now rewrite <- !app_assoc.
      * rewrite Hdom, dom_insert_L. cbn. set_solver.
    + discriminate.
Qed.

Lemma subtitle_loop_Raise audios :
  forall d0 w e w',
    for_each audios
      (subtitle_body E persist dir
         (fun audio_path => run_transcribe E model_name audio_path opts))
      d0 w = (Raise e, w') ->
    exists audio, e = TranscriptionError audio.
Proof.
  induction audios as [ | [p audio] audios IH]; intros d0 w e w' Hrun;
    cbn in Hrun.
  - discriminate.
  - unfold bind at 1, subtitle_body at 1 in Hrun.
    unfold bind at 1 in Hrun.
    destruct (run_transcribe_cases E model_name audio opts w)
      as [(segments & _ & Heq) | (_ & Heq)]; rewrite Heq in Hrun.
    + unfold bind, emit, write_file, ret in Hrun. cbn in Hrun.
      now apply IH in Hrun.
    + inversion Hrun; subst. eauto.
Qed.

End Subtitles.

(** ** Composition *)

Lemma compose_all_loop E dir style subtitles :
  compose_all E dir style subtitles =
  for_each subtitles (compose_body E dir style) tt.
Proof. reflexivity. Qed.

Lemma compose_loop_Return E dir style subtitles :
  forall u w u' w',
    for_each subtitles (compose_body E dir style) u w = (Return u', w') ->
    log w' = log w ++ compose_events dir style subtitles
    /\ dom (fs w') =
       dom (fs w) ∪ list_to_set (map (fun i => out_path_in dir i.1) subtitles).
Proof.
  induction subtitles as [ | [p srt] subtitles IH]; intros u w u' w' Hrun;
    cbn in Hrun.
  - inversion Hrun; subst. cbn. rewrite app_nil_r.
    split; [ reflexivity | set_solver ].
  - unfold bind at 1, compose_body at 1 in Hrun.
    destruct (run_compose_cases E p srt style (out_path_in dir p) w)
      as [(mp4 & _ & Heq) | (_ & Heq)]; rewrite Heq in Hrun.
    + apply IH in Hrun. destruct Hrun as (Hlog & Hdom). cbn [fs log] in *.
      split.
      * rewrite Hlog. cbn. now rewrite <- !app_assoc.
      * rewrite Hdom, dom_insert_L. cbn. set_solver.
    + discriminate.
Qed.

(** A composition that raises ends the loop: the videos after it are not
    composed. *)
Lemma compose_loop_Raise E dir style subtitles :
  forall u w e w',
    for_each subtitles (compose_body E dir style) u w = (Raise e, w') ->
    exists done p srt rest,
      subtitles = done ++ (p, srt) :: rest
      /\ e = ComposeError p
      /\ ffmpeg_subtitles E (fs w') p srt style = None
      /\ log w' = log w ++ compose_events dir style (done ++ [(p, srt)])
      /\ dom (fs w') =
         dom (fs w) ∪ list_to_set (map (fun i => out_path_in dir i.1) done).
Proof.
  induction subtitles as [ | [p srt] subtitles IH]; intros u w e w' Hrun;
    cbn in Hrun.
  - discriminate.
  - unfold bind at 1, compose_body at 1 in Hrun.
    destruct (run_compose_cases E p srt style (out_path_in dir p) w)
      as [(mp4 & _ & Heq) | (Hnone & Heq)]; rewrite Heq in Hrun.
    + apply IH in Hrun.
      destruct Hrun as (done & q & s & rest & -> & -> & Hq & Hlog & Hdom).
      cbn [fs log] in *.
      exists ((p, srt) :: done), q, s, rest.
      split; [ reflexivity | ]. split; [ reflexivity | ].
      split; [ exact Hq | ]. split.
      * rewrite Hlog. cbn. now rewrite <- !app_assoc.
      * rewrite Hdom, dom_insert_L. cbn. set_solver.
    + inversion Hrun; subst. cbn [fs log].
      exists [], p, srt, subtitles.
      split; [ reflexivity | ]. split; [ reflexivity | ].
      split; [ exact Hnone | ]. split; [ reflexivity | cbn; set_solver ].
Qed.

(* ===================================================================== *)
(** * Runs of [main] *)
(* ===================================================================== *)

(** Equations between unions of sets of paths, the sets taken as they are. *)
Ltac solve_frame :=
  repeat match goal with
    | |- context [@list_to_set ?A ?C ?e ?s ?u ?l] =>
        let X := fresh "X" in
        set (X := @list_to_set A C e s u l); clearbody X
    | |- context [dom ?m] =>
        let D := fresh "D" in set (D := dom m); clearbody D
    end;
  repeat match goal with H : _ |- _ => clear H end;
  set_solver.

Lemma main_phases E a w :
  main E a w = phases E a (World (fs w) (log w ++ header a)).
Proof.
  unfold main, phases, set_language, header, options_of, language_of,
    style_of, resolve_color, english_only_warning.
  destruct (endswith (model a) ".en").
  - unfold bind at 1. cbn [emit]. unfold bind at 1. unfold bind at 1.
    cbn [emit ret]. unfold bind at 1. cbn [emit fs log].
    rewrite <- !app_assoc. reflexivity.
  - destruct (negb (String.eqb (language a) "auto"));
      unfold bind at 1; cbn [emit]; unfold bind at 1; cbn [ret];
      unfold bind at 1; cbn [emit fs log];
      rewrite <- !app_assoc; reflexivity.
Qed.

Lemma phases_Return E a w u w' :
  phases E a w = (Return u, w') ->
  log w' =
    log w ++ extract_events E (video a)
      ++ subtitle_events E (output_srt a || srt_only a) (output_dir a)
           (options_of a) (audios_of E a)
      ++ (if srt_only a then []
          else compose_events (output_dir a) (style_of a) (subs_of E a))
  /\ dom (fs w') = dom (fs w) ∪ written E a.
Proof.
  unfold phases. intros Hrun.
  unfold bind at 1 in Hrun. rewrite get_audio_loop in Hrun.
  destruct (for_each (video a) (audio_body E) [] w) as [[audios | e] w1] eqn:H1;
    [ | discriminate ].
  apply audio_loop_Return in H1. destruct H1 as (-> & Hlog1 & Hdom1).
  unfold bind at 1 in Hrun. rewrite get_subtitles_loop in Hrun.
  fold (audios_of E a) in Hrun.
  match type of Hrun with
  | context [for_each ?l ?b ?s w1] =>
      destruct (for_each l b s w1) as [[subtitles | e] w2] eqn:H2;
        [ | discriminate ]
  end.
  apply subtitle_loop_Return in H2. destruct H2 as (-> & Hlog2 & Hdom2).
  fold (subs_of E a) in Hrun.
  unfold written, audio_files, srt_files, mp4_files, srt_path_of, out_path_of.
  destruct (srt_only a).
  - inversion Hrun; subst. split.
    + rewrite Hlog2, Hlog1, app_nil_r, <- !app_assoc. reflexivity.
    + rewrite Hdom2, Hdom1. solve_frame.
  - rewrite compose_all_loop in Hrun. apply compose_loop_Return in Hrun.
    destruct Hrun as (Hlog3 & Hdom3). split.
    + rewrite Hlog3, Hlog2, Hlog1, <- !app_assoc. reflexivity.
    + rewrite Hdom3, Hdom2, Hdom1. solve_frame.
Qed.

Lemma main_Return E a files u w :
  run (main E a) files = (Return u, w) ->
  log w = main_events E a /\ dom (fs w) = dom files ∪ written E a.
Proof.
  unfold run. rewrite main_phases. intros Hrun.
  apply phases_Return in Hrun. exact Hrun.
Qed.

(** When a composition raises, the two phases before it have run to their
    end and the composition loop stops at the video that failed. *)
Lemma phases_ComposeError E a w p w' :
  phases E a w = (Raise (ComposeError p), w') ->
  srt_only a = false
  /\ exists done srt rest,
      subs_of E a = done ++ (p, srt) :: rest
      /\ log w' =
         log w ++ extract_events E (video a)
           ++ subtitle_events E (output_srt a || srt_only a) (output_dir a)
                (options_of a) (audios_of E a)
           ++ compose_events (output_dir a) (style_of a) (done ++ [(p, srt)])
      /\ dom (fs w') =
         dom (fs w) ∪ audio_files E a ∪ srt_files E a
           ∪ list_to_set (map (fun i => out_path_of a i.1) done).
Proof.
  unfold phases. intros Hrun.
  unfold bind at 1 in Hrun. rewrite get_audio_loop in Hrun.
  destruct (for_each (video a) (audio_body E) [] w) as [[audios | e] w1] eqn:H1.
  2:{ apply audio_loop_Raise in H1. destruct H1 as (q & _ & ->).
      discriminate. }
  apply audio_loop_Return in H1. destruct H1 as (-> & Hlog1 & Hdom1).
  unfold bind at 1 in Hrun. rewrite get_subtitles_loop in Hrun.
  fold (audios_of E a) in Hrun.
  match type of Hrun with
  | context [for_each ?l ?b ?s w1] =>
      destruct (for_each l b s w1) as [[subtitles | e] w2] eqn:H2
  end.
  2:{ apply subtitle_loop_Raise in H2. destruct H2 as (q & ->).
      discriminate. }
  apply subtitle_loop_Return in H2. destruct H2 as (-> & Hlog2 & Hdom2).
  fold (subs_of E a) in Hrun.
  destruct (srt_only a) eqn:Hso; [ discriminate | ].
  split; [ reflexivity | ].
  rewrite compose_all_loop in Hrun. apply compose_loop_Raise in Hrun.
  destruct Hrun as (done & q & srt & rest & Hsubs & [= ->] & _ & Hlog3 & Hdom3).
  exists done, srt, rest. split; [ exact Hsubs | ]. split.
  - rewrite Hlog3, Hlog2, Hlog1, <- !app_assoc. reflexivity.
  - rewrite Hdom3, Hdom2, Hdom1.
    unfold audio_files, srt_files, srt_path_of, out_path_of. rewrite Hso.
    solve_frame.
Qed.

(** ** The keys of the dictionaries *)

Lemma dict_keys_set {V} (d : dict V) k v :
  dict_keys (dict_set d k v) =
  if decide (k ∈ dict_keys d) then dict_keys d else dict_keys d ++ [k].
Proof.
  unfold dict_keys.
  induction d as [ | [k' v'] d IH]; cbn.
  - destruct (decide (k ∈ [])) as [Hin | _]; [ inversion Hin | reflexivity ].
  - destruct (String.eqb_spec k' k) as [-> | Hne]; cbn.
    + destruct (decide (k ∈ k :: map fst d)) as [_ | Hn]; [ reflexivity | ].
      exfalso. apply Hn. constructor.
    + rewrite IH.
      destruct (decide (k ∈ map fst d)) as [Hin | Hn];
        destruct (decide (k ∈ k' :: map fst d)) as [Hin' | Hn'];
        try reflexivity.
      * exfalso. apply Hn'. now constructor.
      * exfalso. apply elem_of_cons in Hin' as [-> | Hin']; auto.
Qed.

Lemma dict_set_elem {V} (d : dict V) k v p :
  p ∈ dict_keys (dict_set d k v) <-> p = k \/ p ∈ dict_keys d.
Proof.
  rewrite dict_keys_set. destruct (decide (k ∈ dict_keys d)) as [Hin | Hn].
  - split; [ auto | intros [-> | H]; auto ].
  - rewrite elem_of_app, list_elem_of_singleton. tauto.
Qed.

Lemma dict_set_NoDup {V} (d : dict V) k v :
  NoDup (dict_keys d) -> NoDup (dict_keys (dict_set d k v)).
Proof.
  intros Hd. rewrite dict_keys_set.
  destruct (decide (k ∈ dict_keys d)) as [Hin | Hn]; [ exact Hd | ].
  apply NoDup_app. split; [ exact Hd | ]. split.
  - intros x Hx Hk. apply list_elem_of_singleton in Hk. now subst.
  - apply NoDup_singleton.
Qed.

Lemma dict_set_fresh {V} (d : dict V) k v :
  k ∉ dict_keys d -> dict_set d k v = d ++ [(k, v)].
Proof.
  induction d as [ | [k' v'] d IH]; cbn; intros Hk; [ reflexivity | ].
  destruct (String.eqb_spec k' k) as [-> | Hne].
  - exfalso. apply Hk. constructor.
  - rewrite IH; [ reflexivity | ]. intros Hin. apply Hk. now constructor.
Qed.

Lemma audio_paths_keys E paths :
  forall d, NoDup (dict_keys d) ->
    NoDup (dict_keys (audio_paths_of E paths d))
    /\ forall p, p ∈ dict_keys (audio_paths_of E paths d)
                 <-> p ∈ dict_keys d \/ p ∈ paths.
Proof.
  induction paths as [ | q paths IH]; intros d Hd; cbn.
  - split; [ exact Hd | ]. intros p. rewrite elem_of_nil. tauto.
  - destruct (IH (dict_set d q (audio_path_of E q))) as [Hnd Hin].
    { now apply dict_set_NoDup. }
    split; [ exact Hnd | ]. intros p.
    unfold audio_paths_of in Hin. rewrite Hin, dict_set_elem, elem_of_cons.
    tauto.
Qed.

Lemma audio_paths_values E paths :
  forall d, Forall (fun i => i.2 = audio_path_of E i.1) d ->
    Forall (fun i => i.2 = audio_path_of E i.1) (audio_paths_of E paths d).
Proof.
  induction paths as [ | q paths IH]; intros d Hd; cbn; [ exact Hd | ].
  apply IH. now apply dict_set_Forall.
Qed.

Lemma audios_of_keys E a :
  NoDup (dict_keys (audios_of E a))
  /\ forall p, p ∈ dict_keys (audios_of E a) <-> p ∈ video a.
Proof.
  destruct (audio_paths_keys E (video a) []) as [Hnd Hin]; [ constructor | ].
  split; [ exact Hnd | ]. intros p. unfold audios_of. rewrite Hin.
  cbn. rewrite elem_of_nil. tauto.
Qed.

(** With distinct keys, the subtitle dictionary lists the videos in the
    order of the audio dictionary. *)
Lemma subtitles_of_distinct E persist dir audios :
  forall d,
    NoDup (dict_keys d ++ dict_keys audios) ->
    subtitles_of E persist dir audios d =
    d ++ map (fun i => (i.1, srt_path_in E persist dir i.1)) audios.
Proof.
  induction audios as [ | [p audio] audios IH]; intros d Hnd; cbn.
  - now rewrite app_nil_r.
  - cbn in Hnd. apply NoDup_app in Hnd as (Hd & Hdisj & Hpa).
    apply NoDup_cons in Hpa as [Hp Ha].
    unfold subtitles_of in IH. rewrite IH.
    + rewrite dict_set_fresh, <- app_assoc; [ reflexivity | ].
      intros Hin. apply (Hdisj p Hin). constructor.
    + rewrite dict_keys_set.
      destruct (decide (p ∈ dict_keys d)) as [Hin | Hn].
      { exfalso. apply (Hdisj p Hin). constructor. }
      rewrite <- app_assoc. cbn. apply NoDup_app. split; [ exact Hd | ].
      split.
      * intros x Hx Hx'. apply (Hdisj x Hx). exact Hx'.
      * now apply NoDup_cons.
Qed.

Lemma subs_of_audios E a :
  subs_of E a = map (fun i => (i.1, srt_path_of E a i.1)) (audios_of E a).
Proof.
  unfold subs_of. rewrite subtitles_of_distinct; [ reflexivity | ].
  cbn. apply audios_of_keys.
Qed.

Lemma subs_of_keys E a : dict_keys (subs_of E a) = dict_keys (audios_of E a).
Proof.
  rewrite subs_of_audios. unfold dict_keys. rewrite map_map. reflexivity.
Qed.
(* ===================================================================== *)
(** * Reading a log *)
(* ===================================================================== *)

Lemma filter_none {A} (f : A -> bool) l :
  Forall (fun x => f x = false) l -> List.filter f l = [].
Proof.
  induction 1 as [ | x l Hx _ IH]; cbn; [ reflexivity | ].
  now rewrite Hx.
Qed.


Lemma header_no (f : event -> bool) a :
  (forall d, f (Makedirs d) = false) -> (forall m, f (Warn m) = false) ->
  (forall m, f (LoadModel m) = false) ->
  Forall (fun e => f e = false) (header a).
Proof.
  intros Hm Hw Hl. unfold header, english_only_warning.
  destruct (endswith (model a) ".en"); repeat constructor; auto.
Qed.

Lemma extract_events_no (f : event -> bool) E paths :
  (forall p q, f (Extract p q) = false) ->
  Forall (fun e => f e = false) (extract_events E paths).
Proof.
  intros Hf. unfold extract_events.
  induction paths; cbn; constructor; auto.
Qed.

Lemma subtitle_events_no (f : event -> bool) E persist dir opts audios :
  (forall q o, f (Transcribe q o) = false) ->
  (forall p q, f (WriteSrt p q) = false) ->
  Forall (fun e => f e = false) (subtitle_events E persist dir opts audios).
Proof.
  intros Ht Hw. unfold subtitle_events.
  induction audios as [ | [p audio] audios IH]; cbn; repeat constructor; auto.
Qed.

Lemma compose_events_no (f : event -> bool) dir style subtitles :
  (forall p s st o, f (Compose p s st o) = false) ->
  Forall (fun e => f e = false) (compose_events dir style subtitles).
Proof.
  intros Hf. unfold compose_events.
  induction subtitles as [ | [p srt] subtitles IH]; cbn; constructor; auto.
Qed.


(** In the subtitle phase a video with its own key is written once. *)
Lemma subtitle_events_of E persist dir opts audios p :
  NoDup (dict_keys audios) ->
  List.filter (writes_srt_for p) (subtitle_events E persist dir opts audios) =
  if decide (p ∈ dict_keys audios)
  then [WriteSrt p (srt_path_in E persist dir p)] else [].
Proof.
  unfold dict_keys, subtitle_events.
  induction audios as [ | [q audio] audios IH]; cbn; intros Hnd.
  - destruct (decide (p ∈ [])) as [Hin | _]; [ inversion Hin | reflexivity ].
  - apply NoDup_cons in Hnd as [Hq Hnd]. rewrite (IH Hnd).
    destruct (String.eqb_spec p q) as [-> | Hne].
    + destruct (decide (q ∈ q :: map fst audios)) as [_ | Hn].
      * destruct (decide (q ∈ map fst audios)) as [Hin | _];
          [ contradiction | reflexivity ].
      * exfalso. apply Hn. constructor.
    + destruct (decide (p ∈ map fst audios)) as [Hin | Hn];
        destruct (decide (p ∈ q :: map fst audios)) as [Hin' | Hn'];
        try reflexivity.
      * exfalso. apply Hn'. now constructor.
      * exfalso. apply elem_of_cons in Hin' as [-> | Hin']; auto.
Qed.

Lemma elem_of_path_set {A} (f : A -> string) (l : list A) x :
  x ∈ l -> f x ∈ (list_to_set (map f l) : gset string).
Proof.
  intros Hx. apply elem_of_list_to_set, list_elem_of_In, in_map.
  now apply list_elem_of_In.
Qed.

Lemma key_item {V} (d : dict V) p :
  p ∈ dict_keys d -> exists i, i ∈ d /\ i.1 = p.
Proof.
  unfold dict_keys. intros Hp. apply list_elem_of_In, in_map_iff in Hp.
  destruct Hp as (i & Hi & Hin). exists i. split; [ | exact Hi ].
  now apply list_elem_of_In.
Qed.

(** A run in which every call returns writes the subtitles of each video
    of the batch once, and the file is there when the run ends. *)
Lemma main_Return_srt E a files u w p :
  run (main E a) files = (Return u, w) -> p ∈ video a ->
  List.filter (writes_srt_for p) (log w) = [WriteSrt p (srt_path_of E a p)]
  /\ is_Some (fs w !! srt_path_of E a p).
Proof.
  intros Hrun Hp. apply main_Return in Hrun. destruct Hrun as [Hlog Hdom].
  destruct (audios_of_keys E a) as [Hnd Hkeys]. split.
  - rewrite Hlog. unfold main_events, srt_path_of. rewrite !List.filter_app.
    rewrite (filter_none _ (header a)) by (apply header_no; reflexivity).
    rewrite (filter_none _ (extract_events _ _))
      by (apply extract_events_no; reflexivity).
    rewrite subtitle_events_of by exact Hnd.
    destruct (decide (p ∈ dict_keys (audios_of E a))) as [_ | Hn].
    2:{ exfalso. apply Hn, Hkeys, Hp. }
    destruct (srt_only a); cbn; [ reflexivity | ].
    rewrite filter_none; [ reflexivity | ].
    apply compose_events_no. reflexivity.
  - apply elem_of_dom. rewrite Hdom. unfold written, srt_files.
    apply elem_of_union_r, elem_of_union_l, elem_of_union_r.
    apply Hkeys, key_item in Hp. destruct Hp as (i & Hi & <-).
    now apply (elem_of_path_set (fun i => srt_path_of E a i.1)).
Qed.
(* ===================================================================== *)
(** * Subtitles only, and where the subtitles go *)
(* ===================================================================== *)

(** C5: in subtitle-only mode no composition is attempted in any run, and a
    run in which every call returns writes exactly one subtitle file for
    each video of the batch, under the output directory; the files such a
    run leaves are the audio tracks and the subtitle files, and nothing
    else. *)
Theorem srt_only_skips_composition E a files :
  srt_only a = true ->
  Forall (fun e => is_compose e = false) (log (run (main E a) files).2)
  /\ forall u w, run (main E a) files = (Return u, w) ->
       (forall p, p ∈ video a ->
          List.filter (writes_srt_for p) (log w) =
            [WriteSrt p (path_join (output_dir a) (filename p +:+ ".srt"))]
          /\ is_Some (fs w !! path_join (output_dir a) (filename p +:+ ".srt")))
       /\ dom (fs w) = dom files ∪ audio_files E a ∪ srt_files E a.
Proof.
  intros Hso. split.
  - eapply Forall_impl; [ apply run_expected | ].
    intros [] He; cbn in *; try reflexivity.
    destruct He as [He _]. congruence.
  - intros u w Hrun. split.
    + intros p Hp. pose proof (main_Return_srt E a files u w p Hrun Hp) as H.
      unfold srt_path_of, srt_path_in in H.
      rewrite Hso, orb_true_r in H. exact H.
    + apply main_Return in Hrun. destruct Hrun as [_ Hdom].
      rewrite Hdom. unfold written. rewrite Hso. solve_frame.
Qed.

(** C5 on a batch of three paths, two of them the same video. *)
Lemma srt_only_skips_composition_witness :
  (run (main studio subtitles_only) ∅).1 = Return tt
  /\ Forall (fun e => is_compose e = false)
    (log (run (main studio subtitles_only) ∅).2)
  /\ forall u w, run (main studio subtitles_only) ∅ = (Return u, w) ->
       (forall p, p ∈ video subtitles_only ->
          List.filter (writes_srt_for p) (log w) =
            [WriteSrt p (path_join (output_dir subtitles_only)
                           (filename p +:+ ".srt"))]
          /\ is_Some (fs w !! path_join (output_dir subtitles_only)
                                 (filename p +:+ ".srt")))
       /\ dom (fs w) =
          dom (∅ : gmap string string) ∪ audio_files studio subtitles_only
            ∪ srt_files studio subtitles_only.
Proof.
  split; [ vm_compute; reflexivity | ].
  apply (srt_only_skips_composition studio subtitles_only ∅). reflexivity.
Defined.

(** C6: the subtitle file of a video is written to the output directory
    joined with [<base name>.srt] when [output_srt] or [srt_only] is set,
    and to the temporary directory joined with that name otherwise; in a
    run in which every call returns this happens for every video. *)
Theorem subtitle_location E a files :
  (forall p srt, WriteSrt p srt ∈ log (run (main E a) files).2 ->
     srt = path_join
             (if output_srt a || srt_only a then output_dir a
              else gettempdir E)
             (filename p +:+ ".srt"))
  /\ forall u w, run (main E a) files = (Return u, w) ->
       forall p, p ∈ video a ->
         let srt := path_join
                      (if output_srt a || srt_only a then output_dir a
                       else gettempdir E)
                      (filename p +:+ ".srt") in
         WriteSrt p srt ∈ log w /\ is_Some (fs w !! srt).
Proof.
  split.
  - intros p srt Hin.
    pose proof (run_expected E a files) as Hall.
    rewrite Forall_forall in Hall. apply Hall in Hin.
    cbn in Hin. destruct Hin as [_ ->]. reflexivity.
  - intros u w Hrun p Hp srt.
    destruct (main_Return_srt E a files u w p Hrun Hp) as [Hlog Hfile].
    split; [ | exact Hfile ].
    assert (Hin : In (WriteSrt p (srt_path_of E a p))
                     (List.filter (writes_srt_for p) (log w))).
    { rewrite Hlog. now left. }
    apply List.filter_In in Hin. apply list_elem_of_In, Hin.
Qed.
(* ===================================================================== *)
(** * A composition that fails *)
(* ===================================================================== *)



(* ===================================================================== *)
(** * The order of the steps *)
(* ===================================================================== *)

(** C8, as the specification states it, fails on a batch of two videos:
    the audio of the second video is extracted before the first video is
    transcribed. *)
Lemma two_videos_not_sequential :
  (run (main studio two_videos) ∅).1 = Return tt
  /\ ~ sequential_per_video studio two_videos
         (log (run (main studio two_videos) ∅).2).
Proof.
  split; [ vm_compute; reflexivity | ].
  intros H.
  pose proof (H 0%nat 1%nat "a.mp4" "b.mp4" ltac:(lia) eq_refl eq_refl
                4%nat 3%nat
                (Transcribe "/tmp/a.wav" (options_of two_videos))) as H'.
  vm_compute in H'. specialize (H' eq_refl eq_refl eq_refl). lia.
Qed.

(** C8, amended: a run in which every call returns goes through the batch
    phase by phase.  After the preamble the audio of every path of the
    batch is extracted, in the order of the command line; then every video
    is transcribed and its subtitles written, one video after another;
    then, unless [srt_only] is set, every video is composed, one after
    another.  Within the last two phases each video appears once, in the
    order of its first occurrence on the command line. *)
Theorem phases_follow_each_other E a files u w :
  run (main E a) files = (Return u, w) ->
  log w =
    header a
      ++ extract_events E (video a)
      ++ subtitle_events E (output_srt a || srt_only a) (output_dir a)
           (options_of a) (audios_of E a)
      ++ (if srt_only a then []
          else compose_events (output_dir a) (style_of a) (subs_of E a))
  /\ NoDup (dict_keys (audios_of E a))
  /\ (forall p, p ∈ dict_keys (audios_of E a) <-> p ∈ video a)
  /\ Forall (fun i => i.2 = audio_path_of E i.1) (audios_of E a)
  /\ subs_of E a = map (fun i => (i.1, srt_path_of E a i.1)) (audios_of E a).
Proof.
  intros Hrun. apply main_Return in Hrun. destruct Hrun as [Hlog _].
  split; [ exact Hlog | ].
  split; [ apply audios_of_keys | ].
  split; [ apply audios_of_keys | ].
  split; [ apply audio_paths_values; constructor | apply subs_of_audios ].
Qed.

(** C8, amended, on the batch of two videos. *)
Lemma phases_follow_each_other_witness :
  log (run (main studio two_videos) ∅).2 =
    [ Makedirs "out"; LoadModel "small";
      Extract "a.mp4" "/tmp/a.wav"; Extract "b.mp4" "/tmp/b.wav";
      Transcribe "/tmp/a.wav" (options_of two_videos);
      WriteSrt "a.mp4" "/tmp/a.srt";
      Transcribe "/tmp/b.wav" (options_of two_videos);
      WriteSrt "b.mp4" "/tmp/b.srt";
      Compose "a.mp4" "/tmp/a.srt" (style_of two_videos) "out/a.mp4";
      Compose "b.mp4" "/tmp/b.srt" (style_of two_videos) "out/b.mp4" ].
Proof.
  destruct (phases_follow_each_other studio two_videos ∅ tt
              (run (main studio two_videos) ∅).2) as [Hlog _].
  - vm_compute. reflexivity.
  - rewrite Hlog. vm_compute. reflexivity.
Defined.
(* ===================================================================== *)
(** * Artifact paths *)
(* ===================================================================== *)

(** The artifacts of a run depend on the engine through its temporary
    directory only. *)
Lemma same_tempdir E E' a :
  gettempdir E' = gettempdir E ->
  main_events E' a = main_events E a /\ written E' a = written E a.
Proof.
  destruct E as [tmp f g h], E' as [tmp' f' g' h']. cbn. intros ->.
  split; reflexivity.
Qed.

Lemma same_tempdir_audio E E' paths d :
  gettempdir E' = gettempdir E ->
  audio_paths_of E' paths d = audio_paths_of E paths d.
Proof.
  destruct E as [tmp f g h], E' as [tmp' f' g' h']. cbn. intros ->.
  reflexivity.
Qed.

(** C9: the audio of a video goes to the temporary directory joined with
    [<base name>.wav], its subtitles to the chosen directory joined with
    [<base name>.srt], the composed video to the output directory joined
    with [<base name>.mp4], in every run; two videos with the same base
    name get the same three paths.  Extracting twice gives the same
    dictionary of audio paths, and running the pipeline again on what a run
    has left goes through the same steps on the same paths and adds no
    file: what is there is written over. *)
Theorem artifact_paths_deterministic E E' a :
  gettempdir E' = gettempdir E ->
  (forall files,
     Forall (fun e =>
               match e with
               | Extract p audio =>
                   audio = path_join (gettempdir E) (filename p +:+ ".wav")
               | WriteSrt p srt =>
                   srt = path_join
                           (if output_srt a || srt_only a then output_dir a
                            else gettempdir E)
                           (filename p +:+ ".srt")
               | Compose p srt _ out =>
                   srt = path_join
                           (if output_srt a || srt_only a then output_dir a
                            else gettempdir E)
                           (filename p +:+ ".srt")
                   /\ out = path_join (output_dir a) (filename p +:+ ".mp4")
               | _ => True
               end)
       (log (run (main E a) files).2))
  /\ (forall p p', filename p = filename p' ->
        audio_path_of E p = audio_path_of E p'
        /\ srt_path_of E a p = srt_path_of E a p'
        /\ out_path_of a p = out_path_of a p')
  /\ (forall paths w1 w2 d1 d2 w1' w2',
        get_audio E paths w1 = (Return d1, w1') ->
        get_audio E' paths w2 = (Return d2, w2') ->
        d1 = d2)
  /\ (forall files u w u' w',
        run (main E a) files = (Return u, w) ->
        run (main E' a) (fs w) = (Return u', w') ->
        log w' = log w /\ dom (fs w') = dom (fs w)).
Proof.
  intros Htmp. split; [ | split; [ | split ] ].
  - intros files. eapply Forall_impl; [ apply run_expected | ].
    intros [] He; cbn in *; try exact I.
    + now destruct He as [_ ->].
    + now destruct He as [_ ->].
    + destruct He as (_ & _ & -> & _ & ->). split; reflexivity.
  - intros p p' Hname.
    unfold audio_path_of, srt_path_of, srt_path_in, out_path_of, out_path_in.
    rewrite Hname. repeat split; reflexivity.
  - intros paths w1 w2 d1 d2 w1' w2' H1 H2.
    rewrite get_audio_loop in H1, H2.
    apply audio_loop_Return in H1, H2.
    destruct H1 as [-> _], H2 as [-> _].
    symmetry. now apply same_tempdir_audio.
  - intros files u w u' w' H1 H2.
    apply main_Return in H1, H2.
    destruct H1 as [Hlog1 Hdom1], H2 as [Hlog2 Hdom2].
    destruct (same_tempdir E E' a Htmp) as [Hev Hwr].
    split; [ congruence | ].
    rewrite Hdom2, Hwr, Hdom1. solve_frame.
Qed.

(** C9 on two runs in a row on the batch of two videos. *)
Lemma artifact_paths_deterministic_witness :
  log (run (main studio two_videos)
         (fs (run (main studio two_videos) ∅).2)).2
    = log (run (main studio two_videos) ∅).2
  /\ dom (fs (run (main studio two_videos)
                (fs (run (main studio two_videos) ∅).2)).2)
     = dom (fs (run (main studio two_videos) ∅).2).
Proof.
  destruct (artifact_paths_deterministic studio studio two_videos eq_refl)
    as (_ & _ & _ & Hagain).
  apply (Hagain ∅ tt (run (main studio two_videos) ∅).2 tt
           (run (main studio two_videos)
              (fs (run (main studio two_videos) ∅).2)).2).
  - vm_compute. reflexivity.
  - vm_compute. reflexivity.
Defined.
(* ===================================================================== *)
(** * Videos that share a base name *)
(* ===================================================================== *)

Lemma audio_body_Some E p d w wav :
  ffmpeg_audio E (fs w) p = Some wav ->
  audio_body E p d w =
    (Return (dict_set d p (audio_path_of E p)),
     World (<[audio_path_of E p := wav]> (fs w))
           (log w ++ [Extract p (audio_path_of E p)])).
Proof.
  intros Hwav. unfold audio_body.
  destruct (run_extract_cases E p (audio_path_of E p) w)
    as [(wav' & Hwav' & Heq) | (Hnone & _)]; [ | congruence ].
  rewrite (bind_Return _ _ _ _ _ Heq). unfold ret. congruence.
Qed.

Lemma subtitle_body_Some E persist dir model_name opts p audio d w segments :
  whisper_transcribe E (fs w) model_name audio opts = Some segments ->
  subtitle_body E persist dir
    (fun audio_path => run_transcribe E model_name audio_path opts)
    (p, audio) d w =
    (Return (dict_set d p (srt_path_in E persist dir p)),
     World (<[srt_path_in E persist dir p := write_srt segments]> (fs w))
           (log w ++ [Transcribe audio opts;
                      WriteSrt p (srt_path_in E persist dir p)])).
Proof.
  intros Hseg. unfold subtitle_body.
  destruct (run_transcribe_cases E model_name audio opts w)
    as [(segments' & Hseg' & Heq) | (Hnone & _)]; [ | congruence ].
  rewrite (bind_Return _ _ _ _ _ Heq).
  unfold bind, emit, write_file, ret. cbn.
  rewrite <- app_assoc. cbn. congruence.
Qed.

(** C10: two different paths with the same base name are given the same
    audio path and the same subtitle path.  When both are in a batch, the
    audio extracted from the second replaces the audio of the first before
    anything is transcribed, both transcriptions read that one file, and
    the subtitle file ends up holding the second transcription. *)
Theorem shared_base_name_overwrites
    E p1 p2 persist dir model_name opts files wav1 wav2 segs1 segs2 :
  p1 ≠ p2 -> filename p1 = filename p2 ->
  let audio := audio_path_of E p1 in
  let srt := srt_path_in E persist dir p1 in
  let files1 := <[audio := wav1]> files in
  let files2 := <[audio := wav2]> files1 in
  let files3 := <[srt := write_srt segs1]> files2 in
  ffmpeg_audio E files p1 = Some wav1 ->
  ffmpeg_audio E files1 p2 = Some wav2 ->
  whisper_transcribe E files2 model_name audio opts = Some segs1 ->
  whisper_transcribe E files3 model_name audio opts = Some segs2 ->
  audio_path_of E p2 = audio
  /\ srt_path_in E persist dir p2 = srt
  /\ exists w1 w2,
      get_audio E [p1; p2] (World files []) =
        (Return [(p1, audio); (p2, audio)], w1)
      /\ log w1 = [Extract p1 audio; Extract p2 audio]
      /\ fs w1 !! audio = Some wav2
      /\ get_subtitles E [(p1, audio); (p2, audio)] persist dir
           (fun audio_path => run_transcribe E model_name audio_path opts) w1 =
         (Return [(p1, srt); (p2, srt)], w2)
      /\ log w2 =
           log w1 ++ [Transcribe audio opts; WriteSrt p1 srt;
                      Transcribe audio opts; WriteSrt p2 srt]
      /\ fs w2 !! srt = Some (write_srt segs2).
Proof.
  intros Hne Hname audio srt files1 files2 files3 Hwav1 Hwav2 Hseg1 Hseg2.
  assert (Haudio : audio_path_of E p2 = audio).
  { unfold audio, audio_path_of. now rewrite Hname. }
  assert (Hsrt : srt_path_in E persist dir p2 = srt).
  { unfold srt, srt_path_in. now rewrite Hname. }
  assert (Hkey : String.eqb p1 p2 = false).
  { now apply String.eqb_neq. }
  split; [ exact Haudio | ]. split; [ exact Hsrt | ].
  exists (World files2 [Extract p1 audio; Extract p2 audio]).
  exists (World (<[srt := write_srt segs2]> files3)
            ([Extract p1 audio; Extract p2 audio]
               ++ [Transcribe audio opts; WriteSrt p1 srt;
                   Transcribe audio opts; WriteSrt p2 srt])).
  split; [ | split; [ | split; [ | split; [ | split ] ] ] ].
  - rewrite get_audio_loop. cbn [for_each].
    erewrite bind_Return by (apply audio_body_Some; exact Hwav1).
    erewrite bind_Return by (apply audio_body_Some; exact Hwav2).
    rewrite Haudio. cbn. rewrite Hkey. reflexivity.
  - reflexivity.
  - apply lookup_insert_eq.
  - rewrite get_subtitles_loop. cbn [for_each].
    erewrite bind_Return by (apply subtitle_body_Some; exact Hseg1).
    erewrite bind_Return by (apply subtitle_body_Some; exact Hseg2).
    rewrite Hsrt. cbn. rewrite Hkey. reflexivity.
  - reflexivity.
  - apply lookup_insert_eq.
Qed.

(** C10 on [talks/intro.mp4] and [raw/intro.mkv]. *)
Lemma shared_base_name_overwrites_witness :
  audio_path_of studio "raw/intro.mkv" = "/tmp/intro.wav"
  /\ srt_path_in studio true "out" "raw/intro.mkv" = "out/intro.srt"
  /\ exists w1 w2,
      get_audio studio ["talks/intro.mp4"; "raw/intro.mkv"] (World ∅ []) =
        (Return [("talks/intro.mp4", "/tmp/intro.wav");
                 ("raw/intro.mkv", "/tmp/intro.wav")], w1)
      /\ log w1 = [Extract "talks/intro.mp4" "/tmp/intro.wav";
                   Extract "raw/intro.mkv" "/tmp/intro.wav"]
      /\ fs w1 !! "/tmp/intro.wav" = Some "audio of raw/intro.mkv"
      /\ get_subtitles studio
           [("talks/intro.mp4", "/tmp/intro.wav");
            ("raw/intro.mkv", "/tmp/intro.wav")] true "out"
           (fun audio_path =>
              run_transcribe studio "small" audio_path
                (Options false "transcribe" None)) w1 =
         (Return [("talks/intro.mp4", "out/intro.srt");
                  ("raw/intro.mkv", "out/intro.srt")], w2)
      /\ log w2 =
           log w1 ++ [Transcribe "/tmp/intro.wav" (Options false "transcribe" None);
                      WriteSrt "talks/intro.mp4" "out/intro.srt";
                      Transcribe "/tmp/intro.wav" (Options false "transcribe" None);
                      WriteSrt "raw/intro.mkv" "out/intro.srt"]
      /\ fs w2 !! "out/intro.srt" =
         Some (write_srt
                 [Segment 0 (Time 0 1) (Time 5 2) "audio of raw/intro.mkv"]).
Proof.
  apply (shared_base_name_overwrites studio "talks/intro.mp4" "raw/intro.mkv"
           true "out" "small" (Options false "transcribe" None) ∅
           "audio of talks/intro.mp4" "audio of raw/intro.mkv"
           [Segment 0 (Time 0 1) (Time 5 2) "audio of raw/intro.mkv"]
           [Segment 0 (Time 0 1) (Time 5 2) "audio of raw/intro.mkv"]).
  - discriminate.
  - reflexivity.
  - reflexivity.
  - reflexivity.
  - vm_compute. reflexivity.
  - vm_compute. reflexivity.
Defined.
(* ===================================================================== *)
(** * Strings, lines and decimal numbers *)
(* ===================================================================== *)

Lemma append_nil_l s : "" +:+ s = s.
Proof. reflexivity. Qed.

Lemma append_cons c s t : String c s +:+ t = String c (s +:+ t).
Proof. reflexivity. Qed.

(** Appending does not unfold by itself: [sapp] pushes it inwards. *)
Ltac sapp := cbn; rewrite ?append_nil_l, ?append_cons; cbn.

Lemma append_nil_r s : s +:+ "" = s.
Proof. induction s as [ | c s IH]; sapp; [ reflexivity | now rewrite IH ]. Qed.

Lemma append_assoc s t u : (s +:+ t) +:+ u = s +:+ t +:+ u.
Proof. induction s as [ | c s IH]; sapp; [ reflexivity | now rewrite IH ]. Qed.

Lemma length_append s t :
  String.length (s +:+ t) = (String.length s + String.length t)%nat.
Proof. induction s as [ | c s IH]; sapp; [ reflexivity | now rewrite IH ]. Qed.

Lemma has_char_append c s t :
  has_char c (s +:+ t) = has_char c s || has_char c t.
Proof.
  induction s as [ | d s IH]; sapp; [ reflexivity | ].
  now rewrite IH, orb_assoc.
Qed.

(** ** Splitting at a character *)

Lemma split_nonempty c s : split c s ≠ [].
Proof.
  destruct s as [ | d s]; cbn; [ discriminate | ].
  destruct (Ascii.eqb d c); [ discriminate | ].
  destruct (split c s); discriminate.
Qed.

Lemma split_one c s : has_char c s = false -> split c s = [s].
Proof.
  induction s as [ | d s IH]; cbn; [ reflexivity | ].
  intros H. apply orb_false_iff in H as [Hd Hs].
  rewrite Ascii.eqb_sym, Hd, (IH Hs). reflexivity.
Qed.

Lemma split_append c s t :
  split c (s +:+ String c t) = split c s ++ split c t.
Proof.
  induction s as [ | d s IH]; sapp.
  - now rewrite Ascii.eqb_refl.
  - destruct (Ascii.eqb d c); [ now rewrite IH | ].
    rewrite IH. pose proof (split_nonempty c s) as Hne.
    destruct (split c s) as [ | h l]; [ contradiction | reflexivity ].
Qed.

Lemma join_split c s : join (String c "") (split c s) = s.
Proof.
  induction s as [ | d s IH]; cbn; [ reflexivity | ].
  pose proof (split_nonempty c s) as Hne.
  destruct (Ascii.eqb_spec d c) as [-> | Hd].
  - cbn. destruct (split c s) as [ | h l]; [ contradiction | ].
    cbn in IH |- *. now rewrite IH.
  - destruct (split c s) as [ | h l]; [ contradiction | ].
    destruct l as [ | h' l]; cbn in IH |- *; now rewrite <- IH.
Qed.

(** ** Decimal digits *)

Lemma all_digits_append s t :
  all_digits (s +:+ t) = all_digits s && all_digits t.
Proof.
  induction s as [ | c s IH]; sapp; [ reflexivity | ].
  now rewrite IH, andb_assoc.
Qed.

Lemma all_digits_zeros k : all_digits (zeros k) = true.
Proof. induction k; cbn; auto. Qed.

Lemma all_digits_of_uint d : all_digits (NilEmpty.string_of_uint d) = true.
Proof. induction d; cbn; auto. Qed.

Lemma all_digits_str_of_N n : all_digits (str_of_N n) = true.
Proof.
  unfold str_of_N, NilZero.string_of_uint.
  destruct (N.to_uint n) eqn:Hd; try reflexivity;
    rewrite <- Hd; apply all_digits_of_uint.
Qed.

Lemma all_digits_zfill w n : all_digits (zfill w n) = true.
Proof.
  unfold zfill. now rewrite all_digits_append, all_digits_zeros,
    all_digits_str_of_N.
Qed.

Lemma digits_have_no c s :
  is_digit c = false -> all_digits s = true -> has_char c s = false.
Proof.
  intros Hc. induction s as [ | d s IH]; cbn; [ reflexivity | ].
  intros H. apply andb_true_iff in H as [Hd Hs]. rewrite (IH Hs), orb_false_r.
  destruct (Ascii.eqb_spec c d) as [-> | _]; [ congruence | reflexivity ].
Qed.

Lemma str_of_N_nonempty n : str_of_N n ≠ "".
Proof.
  unfold str_of_N, NilZero.string_of_uint.
  destruct (N.to_uint n); cbn; discriminate.
Qed.

Lemma uint_of_zeros k s d :
  NilEmpty.uint_of_string s = Some d ->
  exists d', NilEmpty.uint_of_string (zeros k +:+ s) = Some d'
             /\ N.of_uint d' = N.of_uint d.
Proof.
  intros Hs. induction k as [ | k (d' & Hd' & Hn)]; sapp.
  - now exists d.
  - exists (Decimal.D0 d'). rewrite Hd'. split; [ reflexivity | exact Hn ].
Qed.

Lemma uint_of_str_of_N n :
  exists d, NilEmpty.uint_of_string (str_of_N n) = Some d /\ N.of_uint d = n.
Proof.
  unfold str_of_N, NilZero.string_of_uint.
  pose proof (Unsigned.of_to n) as Hn.
  destruct (N.to_uint n) as [ | | | | | | | | | | ] eqn:Hd.
  1:{ exists (Decimal.D0 Decimal.Nil). split; [ reflexivity | exact Hn ]. }
  all: exists (N.to_uint n); rewrite <- Hd; split;
    [ apply NilEmpty.usu | apply Unsigned.of_to ].
Qed.

(** What [int] reads back from a zero-padded number. *)
Lemma N_of_str_zfill w n : N_of_str (zfill w n) = Some n.
Proof.
  unfold N_of_str, NilZero.uint_of_string, zfill.
  destruct (uint_of_str_of_N n) as (d & Hd & Hn).
  destruct (zeros _ +:+ str_of_N n) eqn:Hs.
  - exfalso. destruct (w - String.length (str_of_N n))%nat.
    + now apply (str_of_N_nonempty n).
    + discriminate.
  - rewrite <- Hs.
    destruct (uint_of_zeros (w - String.length (str_of_N n)) _ _ Hd)
      as (d' & -> & Hn').
    cbn. now rewrite Hn', Hn.
Qed.

Lemma N_of_str_str_of_N n : N_of_str (str_of_N n) = Some n.
Proof.
  pose proof (N_of_str_zfill 0 n) as H. unfold zfill in H. exact H.
Qed.

Lemma length_zeros k : String.length (zeros k) = k.
Proof. induction k; cbn; auto. Qed.

Lemma length_zfill_ge w n : (w <= String.length (zfill w n))%nat.
Proof. unfold zfill. rewrite length_append, length_zeros. lia. Qed.

Lemma length_zfill w n :
  (String.length (str_of_N n) <= w)%nat -> String.length (zfill w n) = w.
Proof. intros H. unfold zfill. rewrite length_append, length_zeros. lia. Qed.

(** Numbers below a thousand have at most three digits, numbers below a
    hundred at most two: checked on each of them. *)
Lemma length_str_of_N_small (w : nat) (bound : nat) n :
  forallb (fun k => String.length (str_of_N (N.of_nat k)) <=? w)%nat
    (seq 0 bound) = true ->
  n < N.of_nat bound -> (String.length (str_of_N n) <= w)%nat.
Proof.
  intros Hall Hn. rewrite forallb_forall in Hall.
  specialize (Hall (N.to_nat n)). rewrite N2Nat.id in Hall.
  apply Nat.leb_le, Hall, in_seq. lia.
Qed.

Lemma length_zfill_2 n : n < 100 -> String.length (zfill 2 n) = 2%nat.
Proof.
  intros Hn. apply length_zfill.
  apply (length_str_of_N_small 2 100); [ vm_compute; reflexivity | exact Hn ].
Qed.

Lemma length_zfill_3 n : n < 1000 -> String.length (zfill 3 n) = 3%nat.
Proof.
  intros Hn. apply length_zfill.
  apply (length_str_of_N_small 3 1000); [ vm_compute; reflexivity | exact Hn ].
Qed.
(** ** Timestamps *)

Lemma read_field_zfill_exact w n :
  String.length (zfill w n) = w -> read_field true w (zfill w n) = Some n.
Proof.
  intros Hlen. unfold read_field.
  rewrite Hlen, Nat.eqb_refl, all_digits_zfill. apply N_of_str_zfill.
Qed.

Lemma read_field_zfill_least w n : read_field false w (zfill w n) = Some n.
Proof.
  unfold read_field.
  rewrite (proj2 (Nat.leb_le _ _) (length_zfill_ge w n)), all_digits_zfill.
  apply N_of_str_zfill.
Qed.

Lemma no_char_zfill c w n : is_digit c = false -> has_char c (zfill w n) = false.
Proof. intros Hc. apply digits_have_no; [ exact Hc | apply all_digits_zfill ]. Qed.

Lemma format_ms_fields ms :
  format_ms ms =
    zfill 2 (ms / 3600000)
      +:+ String ":" (zfill 2 (ms mod 3600000 / 60000)
      +:+ String ":" (zfill 2 (ms mod 3600000 mod 60000 / 1000)
      +:+ String "," (zfill 3 (ms mod 3600000 mod 60000 mod 1000)))).
Proof. reflexivity. Qed.

Lemma fields_in_range ms :
  ms mod 3600000 / 60000 < 60
  /\ ms mod 3600000 mod 60000 / 1000 < 60
  /\ ms mod 3600000 mod 60000 mod 1000 < 1000
  /\ ((ms / 3600000 * 60 + ms mod 3600000 / 60000) * 60
        + ms mod 3600000 mod 60000 / 1000) * 1000
       + ms mod 3600000 mod 60000 mod 1000 = ms.
Proof.
  pose proof (N.div_mod ms 3600000 ltac:(discriminate)) as H1.
  pose proof (N.mod_lt ms 3600000 ltac:(discriminate)) as L1.
  set (a := ms mod 3600000) in *.
  pose proof (N.div_mod a 60000 ltac:(discriminate)) as H2.
  pose proof (N.mod_lt a 60000 ltac:(discriminate)) as L2.
  set (b := a mod 60000) in *.
  pose proof (N.div_mod b 1000 ltac:(discriminate)) as H3.
  pose proof (N.mod_lt b 1000 ltac:(discriminate)) as L3.
  set (c := b mod 1000) in *.
  set (h := ms / 3600000) in *. set (m := a / 60000) in *.
  set (s := b / 1000) in *.
  repeat split; lia.
Qed.

(** Reading a timestamp gives back the milliseconds it was made from. *)
Lemma read_timestamp_format ms : read_timestamp (format_ms ms) = Some ms.
Proof.
  destruct (fields_in_range ms) as (Hm & Hs & Hr & Hsum).
  rewrite format_ms_fields. unfold read_timestamp.
  rewrite split_append, (split_one ":" (zfill 2 _))
    by (apply no_char_zfill; reflexivity).
  rewrite split_append, (split_one ":" (zfill 2 _))
    by (apply no_char_zfill; reflexivity).
  rewrite (split_one ":").
  2:{ rewrite has_char_append. cbn.
      rewrite !no_char_zfill by reflexivity. reflexivity. }
  cbn [app].
  rewrite split_append, !(split_one ",") by (apply no_char_zfill; reflexivity).
  cbn [app].
  rewrite read_field_zfill_least.
  rewrite !read_field_zfill_exact
    by (first [ apply length_zfill_2; lia | apply length_zfill_3; lia ]).
  rewrite (proj2 (N.ltb_lt _ _) Hm), (proj2 (N.ltb_lt _ _) Hs). cbn.
  now rewrite Hsum.
Qed.

Lemma no_char_format_ms c ms :
  is_digit c = false -> c ≠ ":"%char -> c ≠ ","%char ->
  has_char c (format_ms ms) = false.
Proof.
  intros Hd Hcolon Hcomma. rewrite format_ms_fields.
  rewrite !has_char_append. cbn. rewrite !has_char_append. cbn.
  rewrite !has_char_append. cbn.
  rewrite !no_char_zfill by exact Hd.
  destruct (Ascii.eqb_spec c ":"), (Ascii.eqb_spec c ","); try contradiction.
  reflexivity.
Qed.

Lemma read_timing_format a b :
  read_timing (format_ms a +:+ " --> " +:+ format_ms b) = Some (a, b).
Proof.
  unfold read_timing.
  change (" --> " +:+ format_ms b)
    with (String " " ("-->" +:+ String " " (format_ms b))).
  rewrite split_append, (split_one " " (format_ms a))
    by (apply no_char_format_ms; [ reflexivity | discriminate | discriminate ]).
  rewrite split_append, (split_one " " "-->") by reflexivity.
  rewrite (split_one " " (format_ms b))
    by (apply no_char_format_ms; [ reflexivity | discriminate | discriminate ]).
  cbn [app]. rewrite !read_timestamp_format. reflexivity.
Qed.

(** Rounding to the millisecond moves a time by half a millisecond at
    most. *)
Lemma milliseconds_close t :
  (2 * Z.abs (Z.of_N (milliseconds t) * Zpos (t_den t)
              - 1000 * Z.of_N (t_num t)) <= Zpos (t_den t))%Z.
Proof.
  unfold milliseconds. destruct t as [n d]. cbn [t_num t_den].
  pose proof (N.div_mod (2000 * n + N.pos d) (2 * N.pos d) ltac:(lia)) as H.
  pose proof (N.mod_lt (2000 * n + N.pos d) (2 * N.pos d) ltac:(lia)) as L.
  set (q := (2000 * n + N.pos d) / (2 * N.pos d)) in *.
  set (r := (2000 * n + N.pos d) mod (2 * N.pos d)) in *.
  nia.
Qed.
(* ===================================================================== *)
(** * Writing subtitles and reading them back *)
(* ===================================================================== *)

Lemma write_srt_from_blocks segments :
  forall i file,
    write_srt_from i segments file = file +:+ blocks_from i segments.
Proof.
  induction segments as [ | s rest IH]; intros i file; cbn.
  - now rewrite append_nil_r.
  - now rewrite IH, append_assoc.
Qed.

Lemma write_srt_blocks_from segments :
  write_srt segments = blocks_from 1 segments.
Proof. unfold write_srt. now rewrite write_srt_from_blocks. Qed.


(** The lines of a block followed by [rest]. *)
Lemma srt_block_lines i s rest :
  split LF (srt_block i s +:+ rest) =
    [ str_of_N i;
      format_timestamp (seg_start s) +:+ " --> " +:+ format_timestamp (seg_end s) ]
      ++ split LF (seg_text s) ++ "" :: split LF rest.
Proof.
  unfold srt_block, nl.
  replace ((str_of_N i
              +:+ String LF ""
              +:+ format_timestamp (seg_start s)
              +:+ " --> "
              +:+ format_timestamp (seg_end s)
              +:+ String LF "" +:+ seg_text s +:+ String LF "" +:+ String LF "")
             +:+ rest)
    with (str_of_N i
            +:+ String LF
                  ((format_timestamp (seg_start s) +:+ " --> "
                      +:+ format_timestamp (seg_end s))
                     +:+ String LF (seg_text s +:+ String LF (String LF rest)))).
  2:{ rewrite !append_assoc. reflexivity. }
  rewrite split_append, (split_one LF (str_of_N i))
    by (apply digits_have_no; [ reflexivity | apply all_digits_str_of_N ]).
  rewrite split_append, (split_one LF (_ +:+ _)).
  2:{ unfold format_timestamp. rewrite !has_char_append.
      rewrite !no_char_format_ms by (reflexivity || discriminate).
      reflexivity. }
  rewrite split_append. cbn. reflexivity.
Qed.

Lemma read_text start stop lines :
  forall text rest,
    Forall (fun l => l <> "") lines ->
    read_lines (Timed start stop text) (lines ++ "" :: rest) =
    option_map (cons (close start stop (rev lines ++ text)))
      (read_lines Idle rest).
Proof.
  induction lines as [ | l lines IH]; intros text rest Hlines; cbn.
  - reflexivity.
  - inversion Hlines as [ | ? ? Hl Hrest]; subst.
    destruct (String.eqb_spec l "") as [-> | _]; [ contradiction | ].
    rewrite (IH (l :: text) rest Hrest). rewrite <- app_assoc. reflexivity.
Qed.

Lemma read_block i s rest :
  no_empty_line (seg_text s) ->
  read_lines Idle (split LF (srt_block i s +:+ rest)) =
  option_map (cons (cue_of s)) (read_lines Idle (split LF rest)).
Proof.
  intros Htext. rewrite srt_block_lines. cbn [app read_lines].
  destruct (String.eqb_spec (str_of_N i) "") as [He | _].
  { now apply str_of_N_nonempty in He. }
  rewrite all_digits_str_of_N.
  unfold format_timestamp. rewrite read_timing_format.
  destruct Htext as [Hempty | Hlines].
  - rewrite Hempty. cbn. unfold cue_of, close. rewrite Hempty. reflexivity.
  - rewrite (read_text _ _ _ [] _ Hlines). rewrite app_nil_r.
    unfold close, cue_of. rewrite rev_involutive.
    change nl with (String LF ""). now rewrite join_split.
Qed.

Lemma read_blocks segments :
  forall i,
    Forall (fun s => no_empty_line (seg_text s)) segments ->
    read_lines Idle (split LF (blocks_from i segments)) =
    Some (map cue_of segments).
Proof.
  induction segments as [ | s rest IH]; intros i Hall; cbn.
  - reflexivity.
  - inversion Hall as [ | ? ? Hs Hrest]; subst.
    rewrite (read_block i s _ Hs), (IH _ Hrest). reflexivity.
Qed.

Lemma cue_of_close s :
  cue_text (cue_of s) = seg_text s
  /\ within_one_ms (seg_start s) (cue_start (cue_of s))
  /\ within_one_ms (seg_end s) (cue_end (cue_of s)).
Proof.
  unfold within_one_ms, cue_of. cbn.
  pose proof (milliseconds_close (seg_start s)).
  pose proof (milliseconds_close (seg_end s)).
  repeat split; lia.
Qed.

Lemma same_cues_cue_of segments : same_cues segments (map cue_of segments).
Proof.
  unfold same_cues.
  induction segments as [ | s rest IH]; cbn; constructor;
    [ apply cue_of_close | exact IH ].
Qed.

(** C1, as the specification states it, fails: a segment whose text holds
    an empty line followed by what looks like a block is written to the
    very file of two other segments, so that no reader at all gives back
    both sequences; the reader of this development finds two cues where
    one segment was written. *)
Lemma blank_line_breaks_round_trip :
  write_srt [tricky] = write_srt [plain_a; plain_b]
  /\ read_srt (write_srt [tricky]) = Some [cue_of plain_a; cue_of plain_b]
  /\ ~ (exists reader : string -> option (list cue),
          forall segments, segments <> [] ->
            exists cues,
              reader (write_srt segments) = Some cues
              /\ same_cues segments cues).
Proof.
  split; [ vm_compute; reflexivity | ].
  split; [ vm_compute; reflexivity | ].
  intros (reader & Hreader).
  destruct (Hreader [tricky] ltac:(discriminate)) as (cues1 & Hread1 & Hsame1).
  destruct (Hreader [plain_a; plain_b] ltac:(discriminate))
    as (cues2 & Hread2 & Hsame2).
  assert (Hfile : write_srt [tricky] = write_srt [plain_a; plain_b])
    by (vm_compute; reflexivity).
  rewrite Hfile, Hread2 in Hread1. injection Hread1 as <-.
  apply Forall2_length in Hsame1, Hsame2. cbn in Hsame1, Hsame2. lia.
Qed.

(** C1, amended: when no text has an empty line (an empty text is fine),
    reading the file that was written gives back one cue per segment, in
    order, with the text of the segment and its times rounded to the
    millisecond, hence within one millisecond of the times written. *)
Theorem write_then_read segments :
  Forall (fun s => no_empty_line (seg_text s)) segments ->
  read_srt (write_srt segments) = Some (map cue_of segments)
  /\ same_cues segments (map cue_of segments).
Proof.
  intros Hall. split; [ | apply same_cues_cue_of ].
  unfold read_srt. rewrite write_srt_blocks_from. now apply read_blocks.
Qed.

(** C1, amended, on a transcript of three segments. *)
Lemma write_then_read_witness :
  read_srt (write_srt talk) =
    Some [ Cue 333 2500 " Hello there.";
           Cue 2500 7263 ("Two" +:+ nl +:+ "lines.");
           Cue 3600000 360000000 "" ]
  /\ same_cues talk (map cue_of talk).
Proof.
  apply (write_then_read talk).
  unfold talk.
  constructor; [ | constructor; [ | constructor; [ | constructor ] ] ].
  - right. cbn. repeat constructor. discriminate.
  - right. cbn. repeat constructor; discriminate.
  - left. reflexivity.
Defined.
(* ===================================================================== *)
(** * The shape of a subtitle file *)
(* ===================================================================== *)



(** ** The fields of a timestamp *)


(** ** What a timestamp with two digits for the hours can say *)








(* ===================================================================== *)
(** * Further properties of [main] *)
(* ===================================================================== *)

Import Behaviour.

(** ** The preamble *)



(** ** The options of a transcription *)

(** X2: with a model that is not English-only no warning is issued, and
    every transcription of the run is given [verbose] and [task] as they
    were on the command line, and the requested language, or no language
    entry at all when the request was [auto]. *)
Theorem multilingual_options E a files :
  endswith (model a) ".en" = false ->
  Forall
    (fun e =>
       match e with
       | Warn _ => False
       | Transcribe _ opts =>
           opt_verbose opts = verbose a
           /\ opt_task opts = task a
           /\ opt_language opts =
              (if String.eqb (language a) "auto" then None
               else Some (language a))
       | _ => True
       end)
    (log (run (main E a) files).2).
Proof.
  intros Hen. eapply Forall_impl; [ apply run_expected | ].
  intros [] He; cbn in *; try exact I.
  - destruct He as [He _]. congruence.
  - destruct He as [-> _]. cbn. unfold language_of. rewrite Hen.
    repeat split. now destruct (String.eqb (language a) "auto").
Qed.

(** X2 on the batch in German with the model [medium]. *)
Lemma multilingual_options_witness :
  Forall
    (fun e =>
       match e with
       | Warn _ => False
       | Transcribe _ opts =>
           opt_verbose opts = false
           /\ opt_task opts = "transcribe"
           /\ opt_language opts = Some "de"
       | _ => True
       end)
    (log (run (main studio repeated) ∅).2).
Proof.
  apply (multilingual_options studio repeated ∅). reflexivity.
Defined.

(** ** The style of a composition *)

Lemma resolve_color_in_table (color_name : string) :
  resolve_color color_name ∈ color_codes.
Proof.
  unfold resolve_color.
  destruct (COLORS !! lower color_name) as [hex | ] eqn:Hl; cbn.
  - apply elem_of_list_to_map_2 in Hl. unfold color_codes.
    repeat (apply elem_of_cons in Hl as [[= _ ->] | Hl];
            [ repeat constructor | ]).
    inversion Hl.
  - unfold color_codes. repeat constructor.
Qed.

(** X3: every composition of a run is given the same style string, made of
    the font name, the font size and the border style of the command line
    as they are, and of a colour that is one of the eight codes of the
    table whatever was given as colour: the text of the user never gets
    into the colour field. *)
Theorem style_of_every_composition E a files :
  exists code,
    code ∈ color_codes
    /\ Forall
         (fun e =>
            match e with
            | Compose _ _ style _ =>
                style =
                  "FontName=" +:+ font_name a
                    +:+ ",FontSize=" +:+ str_of_Z (font_size a)
                    +:+ ",OutlineColour=" +:+ code
                    +:+ ",BorderStyle=" +:+ str_of_Z (border_style a)
            | _ => True
            end)
         (log (run (main E a) files).2).
Proof.
  exists (resolve_color (color a)).
  split; [ apply resolve_color_in_table | ].
  eapply Forall_impl; [ apply run_expected | ].
  intros [] He; cbn in *; try exact I.
  destruct He as (_ & _ & _ & -> & _). reflexivity.
Qed.
(* ===================================================================== *)
(** * Runs that fail before the composition *)
(* ===================================================================== *)

(** An extraction that raises ends the loop of [get_audio]. *)
Lemma audio_loop_Raise_at E paths :
  forall d0 w e w',
    for_each paths (audio_body E) d0 w = (Raise e, w') ->
    exists done p rest,
      paths = done ++ p :: rest
      /\ e = ExtractionError p
      /\ ffmpeg_audio E (fs w') p = None
      /\ log w' = log w ++ extract_events E (done ++ [p])
      /\ dom (fs w') =
         dom (fs w) ∪ list_to_set (map (audio_path_of E) done).
Proof.
  induction paths as [ | p paths IH]; intros d0 w e w' Hrun; cbn in Hrun.
  - discriminate.
  - unfold bind at 1, audio_body at 1 in Hrun. unfold bind at 1 in Hrun.
    destruct (run_extract_cases E p (audio_path_of E p) w)
      as [(wav & _ & Heq) | (Hnone & Heq)]; rewrite Heq in Hrun; cbn in Hrun.
    + apply IH in Hrun.
      destruct Hrun as (done & q & rest & -> & -> & Hq & Hlog & Hdom).
      cbn [fs log] in *. exists (p :: done), q, rest.
      split; [ reflexivity | ]. split; [ reflexivity | ].
      split; [ exact Hq | ]. split.
      * rewrite Hlog. cbn. now rewrite <- app_assoc.
      * rewrite Hdom, dom_insert_L. cbn. set_solver.
    + inversion Hrun; subst. cbn [fs log].
      exists [], p, paths.
      split; [ reflexivity | ]. split; [ reflexivity | ].
      split; [ exact Hnone | ]. split; [ reflexivity | cbn; set_solver ].
Qed.

(** A transcription that raises ends the loop of [get_subtitles], before
    the subtitle file of that video is opened. *)
Lemma subtitle_loop_Raise_at E persist dir model_name opts audios :
  forall d0 w e w',
    for_each audios
      (subtitle_body E persist dir
         (fun audio_path => run_transcribe E model_name audio_path opts))
      d0 w = (Raise e, w') ->
    exists done p audio rest,
      audios = done ++ (p, audio) :: rest
      /\ e = TranscriptionError audio
      /\ whisper_transcribe E (fs w') model_name audio opts = None
      /\ log w' =
         log w ++ subtitle_events E persist dir opts done
           ++ [Transcribe audio opts]
      /\ dom (fs w') =
         dom (fs w)
           ∪ list_to_set (map (fun i => srt_path_in E persist dir i.1) done).
Proof.
  induction audios as [ | [p audio] audios IH]; intros d0 w e w' Hrun;
    cbn in Hrun.
  - discriminate.
  - unfold bind at 1, subtitle_body at 1 in Hrun. unfold bind at 1 in Hrun.
    destruct (run_transcribe_cases E model_name audio opts w)
      as [(segments & _ & Heq) | (Hnone & Heq)]; rewrite Heq in Hrun.
    + unfold bind, emit, write_file, ret in Hrun. cbn in Hrun.
      apply IH in Hrun.
      destruct Hrun as (done & q & aq & rest & -> & -> & Hq & Hlog & Hdom).
      cbn [fs log] in *. exists ((p, audio) :: done), q, aq, rest.
      split; [ reflexivity | ]. split; [ reflexivity | ].
      split; [ exact Hq | ]. split.
      * rewrite Hlog. cbn. now rewrite <- !app_assoc.
      * rewrite Hdom, dom_insert_L. cbn. set_solver.
    + inversion Hrun; subst. cbn [fs log].
      exists [], p, audio, audios.
      split; [ reflexivity | ]. split; [ reflexivity | ].
      split; [ exact Hnone | ]. split; [ reflexivity | cbn; set_solver ].
Qed.

Lemma phases_ExtractionError E a w p w' :
  phases E a w = (Raise (ExtractionError p), w') ->
  exists done rest,
    video a = done ++ p :: rest
    /\ ffmpeg_audio E (fs w') p = None
    /\ log w' = log w ++ extract_events E (done ++ [p])
    /\ dom (fs w') = dom (fs w) ∪ list_to_set (map (audio_path_of E) done).
Proof.
  unfold phases. intros Hrun.
  unfold bind at 1 in Hrun. rewrite get_audio_loop in Hrun.
  destruct (for_each (video a) (audio_body E) [] w) as [[audios | e] w1] eqn:H1.
  - exfalso. unfold bind at 1 in Hrun. rewrite get_subtitles_loop in Hrun.
    match type of Hrun with
    | context [for_each ?l ?b ?s w1] =>
        destruct (for_each l b s w1) as [[subtitles | e] w2] eqn:H2
    end.
    + destruct (srt_only a); [ discriminate | ].
      rewrite compose_all_loop in Hrun. apply compose_loop_Raise in Hrun.
      destruct Hrun as (? & ? & ? & ? & _ & He & _). discriminate.
    + apply subtitle_loop_Raise in H2. destruct H2 as (q & ->). discriminate.
  - injection Hrun as -> ->. apply audio_loop_Raise_at in H1.
    destruct H1 as (done & q & rest & Hv & [= ->] & Hq & Hlog & Hdom).
    exists done, rest. auto.
Qed.

Lemma phases_TranscriptionError E a w audio w' :
  phases E a w = (Raise (TranscriptionError audio), w') ->
  exists done p rest,
    audios_of E a = done ++ (p, audio) :: rest
    /\ whisper_transcribe E (fs w') (model a) audio (options_of a) = None
    /\ log w' =
       log w ++ extract_events E (video a)
         ++ subtitle_events E (output_srt a || srt_only a) (output_dir a)
              (options_of a) done
         ++ [Transcribe audio (options_of a)]
    /\ dom (fs w') =
       dom (fs w) ∪ audio_files E a
         ∪ list_to_set (map (fun i => srt_path_of E a i.1) done).
Proof.
  unfold phases. intros Hrun.
  unfold bind at 1 in Hrun. rewrite get_audio_loop in Hrun.
  destruct (for_each (video a) (audio_body E) [] w) as [[audios | e] w1] eqn:H1.
  2:{ apply audio_loop_Raise in H1. destruct H1 as (q & _ & ->).
      discriminate. }
  apply audio_loop_Return in H1. destruct H1 as (-> & Hlog1 & Hdom1).
  unfold bind at 1 in Hrun. rewrite get_subtitles_loop in Hrun.
  fold (audios_of E a) in Hrun.
  match type of Hrun with
  | context [for_each ?l ?b ?s w1] =>
      destruct (for_each l b s w1) as [[subtitles | e] w2] eqn:H2
  end.
  - exfalso. destruct (srt_only a); [ discriminate | ].
    rewrite compose_all_loop in Hrun. apply compose_loop_Raise in Hrun.
    destruct Hrun as (? & ? & ? & ? & _ & He & _). discriminate.
  - injection Hrun as -> ->. apply subtitle_loop_Raise_at in H2.
    destruct H2 as (done & p & aq & rest & Hv & [= ->] & Hq & Hlog & Hdom).
    exists done, p, rest. split; [ exact Hv | ]. split; [ exact Hq | ]. split.
    + rewrite Hlog, Hlog1, <- !app_assoc. reflexivity.
    + rewrite Hdom, Hdom1. unfold audio_files, srt_path_of. solve_frame.
Qed.




(** ** Every run starts as the run without errors *)

Lemma extract_events_app E l1 l2 :
  extract_events E (l1 ++ l2) = extract_events E l1 ++ extract_events E l2.
Proof. unfold extract_events. apply map_app. Qed.

Lemma subtitle_events_app E persist dir opts l1 l2 :
  subtitle_events E persist dir opts (l1 ++ l2) =
  subtitle_events E persist dir opts l1 ++ subtitle_events E persist dir opts l2.
Proof. unfold subtitle_events. apply flat_map_app. Qed.

Lemma compose_events_app dir style l1 l2 :
  compose_events dir style (l1 ++ l2) =
  compose_events dir style l1 ++ compose_events dir style l2.
Proof. unfold compose_events. apply map_app. Qed.

Lemma phases_prefix E a w :
  exists rest,
    log w ++ extract_events E (video a)
      ++ subtitle_events E (output_srt a || srt_only a) (output_dir a)
           (options_of a) (audios_of E a)
      ++ (if srt_only a then []
          else compose_events (output_dir a) (style_of a) (subs_of E a))
    = log (phases E a w).2 ++ rest
    /\ match (phases E a w).1 with
       | Return _ => rest = []
       | Raise _ => True
       end.
Proof.
  destruct (phases E a w) as [[u | [p | audio | p]] w'] eqn:Hrun; cbn [fst snd].
  - apply phases_Return in Hrun. destruct Hrun as [-> _].
    exists []. now rewrite app_nil_r.
  - apply phases_ExtractionError in Hrun.
    destruct Hrun as (done & rest & Hv & _ & -> & _).
    rewrite Hv. eexists. split; [ | exact I ].
    rewrite (extract_events_app E done (p :: rest)).
    rewrite (extract_events_app E done [p]). cbn.
    rewrite <- !app_assoc. cbn. reflexivity.
  - apply phases_TranscriptionError in Hrun.
    destruct Hrun as (done & p & rest & Hv & _ & -> & _).
    rewrite Hv. eexists. split; [ | exact I ].
    rewrite subtitle_events_app. cbn.
    rewrite <- !app_assoc. cbn. reflexivity.
  - apply phases_ComposeError in Hrun.
    destruct Hrun as (Hso & done & srt & rest & Hsubs & -> & _).
    rewrite Hso, Hsubs. eexists. split; [ | exact I ].
    rewrite (compose_events_app _ _ done ((p, srt) :: rest)).
    rewrite (compose_events_app _ _ done [(p, srt)]). cbn.
    rewrite <- !app_assoc. cbn. reflexivity.
Qed.

(** X6: whatever the engines do, a run goes through the steps of the run
    in which every call returns, in the same order and with the same
    arguments, for as long as it lasts: its log is the beginning of that
    sequence of steps, and the whole of it when the run returns.  An error
    cuts the sequence short and changes nothing in what came before. *)
Theorem run_is_a_prefix E a files :
  exists rest,
    main_events E a = log (run (main E a) files).2 ++ rest
    /\ match (run (main E a) files).1 with
       | Return _ => rest = []
       | Raise _ => True
       end.
Proof.
  unfold run. rewrite main_phases. cbn [fs log app].
  destruct (phases_prefix E a (World files (header a)))
    as (rest & Heq & Hres).
  exists rest. split; [ | exact Hres ]. cbn [log] in Heq.
  rewrite <- Heq. reflexivity.
Qed.
(* ===================================================================== *)
(** * How often a video is worked on *)
(* ===================================================================== *)

Lemma extract_events_count E p paths :
  length (List.filter (extracts_of p) (extract_events E paths)) =
  occurrences p paths.
Proof.
  unfold extract_events.
  induction paths as [ | q paths IH]; cbn; [ reflexivity | ].
  destruct (String.eqb p q); cbn; now rewrite IH.
Qed.

Lemma subtitle_events_transcribe E persist dir opts audios :
  length (List.filter is_transcribe
            (subtitle_events E persist dir opts audios)) = length audios.
Proof.
  unfold subtitle_events.
  induction audios as [ | [q audio] audios IH]; cbn; [ reflexivity | ].
  now rewrite IH.
Qed.

Lemma compose_events_of dir style subtitles p :
  NoDup (dict_keys subtitles) ->
  forall srt, (p, srt) ∈ subtitles ->
    List.filter (composes_of p) (compose_events dir style subtitles) =
    [Compose p srt style (out_path_in dir p)].
Proof.
  unfold dict_keys, compose_events.
  induction subtitles as [ | [q s] subtitles IH]; cbn; intros Hnd srt Hin.
  - inversion Hin.
  - apply NoDup_cons in Hnd as [Hq Hnd].
    apply elem_of_cons in Hin as [[= <- <-] | Hin].
    + rewrite String.eqb_refl. f_equal.
      apply filter_none. apply Forall_forall. intros e He.
      apply list_elem_of_In, in_map_iff in He.
      destruct He as ([q' s'] & <- & Hin'). cbn.
      destruct (String.eqb_spec p q') as [<- | ]; [ | reflexivity ].
      exfalso. apply Hq. apply list_elem_of_In, in_map_iff.
      now exists (p, s').
    + destruct (String.eqb_spec p q) as [<- | Hne].
      * exfalso. apply Hq. apply list_elem_of_In, in_map_iff.
        exists (p, srt). split; [ reflexivity | now apply list_elem_of_In ].
      * now apply IH.
Qed.

Lemma distinct_videos E a :
  length (audios_of E a) = length (remove_dups (video a)).
Proof.
  destruct (audios_of_keys E a) as [Hnd Hkeys].
  rewrite <- (length_map fst (audios_of E a)).
  apply Permutation_length, NoDup_Permutation.
  - exact Hnd.
  - apply NoDup_remove_dups.
  - intros p. fold (dict_keys (audios_of E a)).
    rewrite Hkeys, elem_of_remove_dups. reflexivity.
Qed.

(** X7: in a run in which every call returns, the audio of a path is
    extracted as many times as the path is given on the command line, but
    a path given several times is transcribed once and composed once: the
    number of transcriptions is the number of distinct paths, and, unless
    [srt_only] is set, each video has exactly one composition, which burns
    its own subtitle file into it and whose output file is there at the
    end. *)
Theorem repeated_path_extracted_again E a files u w :
  run (main E a) files = (Return u, w) ->
  (forall p,
     length (List.filter (extracts_of p) (log w)) = occurrences p (video a))
  /\ length (List.filter is_transcribe (log w)) =
     length (remove_dups (video a))
  /\ (srt_only a = false ->
      forall p, p ∈ video a ->
        List.filter (composes_of p) (log w) =
          [Compose p (srt_path_of E a p) (style_of a) (out_path_of a p)]
        /\ is_Some (fs w !! out_path_of a p)).
Proof.
  intros Hrun. apply main_Return in Hrun. destruct Hrun as [Hlog Hdom].
  destruct (audios_of_keys E a) as [Hnd Hkeys].
  rewrite Hlog. unfold main_events. split; [ | split ].
  - intros p. rewrite !List.filter_app.
    rewrite (filter_none _ (header a)) by (apply header_no; reflexivity).
    rewrite (filter_none _ (subtitle_events _ _ _ _ _))
      by (apply subtitle_events_no; reflexivity).
    assert (Hc : List.filter (extracts_of p)
                   (if srt_only a then []
                    else compose_events (output_dir a) (style_of a)
                           (subs_of E a)) = []).
    { destruct (srt_only a); [ reflexivity | ].
      apply filter_none, compose_events_no. reflexivity. }
    rewrite Hc. cbn. rewrite app_nil_r. apply extract_events_count.
  - rewrite !List.filter_app.
    rewrite (filter_none _ (header a)) by (apply header_no; reflexivity).
    rewrite (filter_none _ (extract_events _ _))
      by (apply extract_events_no; reflexivity).
    assert (Hc : List.filter is_transcribe
                   (if srt_only a then []
                    else compose_events (output_dir a) (style_of a)
                           (subs_of E a)) = []).
    { destruct (srt_only a); [ reflexivity | ].
      apply filter_none, compose_events_no. reflexivity. }
    rewrite Hc. cbn. rewrite app_nil_r, subtitle_events_transcribe.
    apply distinct_videos.
  - intros Hso p Hp. rewrite Hso. 
    assert (Hin : (p, srt_path_of E a p) ∈ subs_of E a).
    { rewrite subs_of_audios. apply Hkeys, key_item in Hp.
      destruct Hp as (i & Hi & <-).
      apply list_elem_of_In, in_map_iff. exists i.
      split; [ reflexivity | now apply list_elem_of_In ]. }
    split.
    + rewrite !List.filter_app.
      rewrite (filter_none _ (header a)) by (apply header_no; reflexivity).
      rewrite (filter_none _ (extract_events _ _))
        by (apply extract_events_no; reflexivity).
      rewrite (filter_none _ (subtitle_events _ _ _ _ _))
        by (apply subtitle_events_no; reflexivity).
      cbn. apply compose_events_of; [ | exact Hin ].
      rewrite subs_of_keys. exact Hnd.
    + apply elem_of_dom. rewrite Hdom. unfold written. rewrite Hso.
      apply elem_of_union_r, elem_of_union_r. unfold mp4_files.
      now apply (elem_of_path_set (fun i => out_path_of a i.1)) in Hin.
Qed.

(** X7 on a batch in which [a.mp4] is given twice. *)
Lemma repeated_path_extracted_again_witness :
  length (List.filter (extracts_of "a.mp4")
            (log (run (main studio repeated) ∅).2)) = 2%nat
  /\ length (List.filter is_transcribe
               (log (run (main studio repeated) ∅).2)) = 2%nat
  /\ List.filter (composes_of "a.mp4")
       (log (run (main studio repeated) ∅).2) =
     [Compose "a.mp4" "/tmp/a.srt" (style_of repeated) "out/a.mp4"].
Proof.
  destruct (repeated_path_extracted_again studio repeated ∅ tt
              (run (main studio repeated) ∅).2) as (He & Ht & Hc).
  - vm_compute. reflexivity.
  - split; [ apply (He "a.mp4") | ]. split; [ exact Ht | ].
    apply (Hc eq_refl "a.mp4"). repeat constructor.
Defined.
(* ===================================================================== *)
(** * The files a run leaves alone *)
(* ===================================================================== *)

Section Frames.
Context {A B : Type}.

Lemma frames_ret S (Q : A -> Prop) x : Q x -> frames S Q (ret x).
Proof. intros HQ w. cbn. auto. Qed.

Lemma frames_raise S (Q : A -> Prop) e : frames S Q (raise e).
Proof. intros w. cbn. auto. Qed.

Lemma frames_bind S (Q : A -> Prop) (R : B -> Prop) (m : M A) (k : A -> M B) :
  frames S Q m -> (forall x, Q x -> frames S R (k x)) -> frames S R (bind m k).
Proof.
  intros Hm Hk w. destruct (Hm w) as (Hfs & Hdom & HQ).
  unfold bind. destruct (m w) as [[x | e] w1]; cbn in *.
  - destruct (Hk x HQ w1) as (Hfs' & Hdom' & HR).
    split; [ | split; [ | exact HR ] ].
    + intros q Hq. rewrite Hfs', Hfs; auto.
    + etransitivity; eassumption.
  - auto.
Qed.

End Frames.

Lemma frames_emit S e : frames S any (emit e).
Proof. intros w. cbn. repeat split; auto. Qed.

Lemma frames_read_fs S : frames S any read_fs.
Proof. intros w. cbn. repeat split; auto. Qed.

Lemma frames_write_file (S : string -> Prop) path data :
  S path -> frames S any (write_file path data).
Proof.
  intros HS w. cbn. split; [ | split; [ | exact I ] ].
  - intros q Hq. apply lookup_insert_ne. intros ->. now apply Hq.
  - apply dom_insert_subseteq.
Qed.

Lemma frames_for_each {A St} S (I : St -> Prop) (body : A -> St -> M St) l :
  (forall x s, x ∈ l -> I s -> frames S I (body x s)) ->
  forall s, I s -> frames S I (for_each l body s).
Proof.
  induction l as [ | x l IH]; intros Hbody s Hs; cbn.
  - now apply frames_ret.
  - eapply frames_bind.
    + apply Hbody; [ constructor | exact Hs ].
    + intros s' Hs'. apply IH; [ | exact Hs' ].
      intros y t Hy. apply Hbody. now constructor.
Qed.

Lemma frames_run_extract (S : string -> Prop) E path output_path :
  S output_path -> frames S any (run_extract E path output_path).
Proof.
  intros HS. unfold run_extract.
  eapply frames_bind; [ apply frames_emit | intros _ _ ].
  eapply frames_bind; [ apply frames_read_fs | intros files _ ].
  destruct (ffmpeg_audio E files path).
  - now apply frames_write_file.
  - apply frames_raise.
Qed.

Lemma frames_run_transcribe S E model_name audio_path args :
  frames S any (run_transcribe E model_name audio_path args).
Proof.
  unfold run_transcribe.
  eapply frames_bind; [ apply frames_emit | intros _ _ ].
  eapply frames_bind; [ apply frames_read_fs | intros files _ ].
  destruct (whisper_transcribe E files model_name audio_path args).
  - now apply frames_ret.
  - apply frames_raise.
Qed.

Lemma frames_run_compose (S : string -> Prop) E path srt_path style out_path :
  S out_path -> frames S any (run_compose E path srt_path style out_path).
Proof.
  intros HS. unfold run_compose.
  eapply frames_bind; [ apply frames_emit | intros _ _ ].
  eapply frames_bind; [ apply frames_read_fs | intros files _ ].
  destruct (ffmpeg_subtitles E files path srt_path style).
  - now apply frames_write_file.
  - apply frames_raise.
Qed.

Section Artifacts.
Variable E : engine.
Variable a : arguments.

Lemma get_audio_frames :
  frames (artifact E a) (Forall (audio_entry E a)) (get_audio E (video a)).
Proof.
  unfold get_audio. apply frames_for_each; [ | constructor ].
  intros p d Hp Hd.
  eapply frames_bind; [ apply frames_run_extract | intros _ _ ].
  - exists p. split; [ exact Hp | ]. left. reflexivity.
  - apply frames_ret. apply dict_set_Forall; [ exact Hd | ]. cbn. auto.
Qed.

Lemma get_subtitles_frames audios :
  Forall (audio_entry E a) audios ->
  frames (artifact E a) (Forall (srt_entry E a))
    (get_subtitles E audios (output_srt a || srt_only a) (output_dir a)
       (fun audio_path =>
          run_transcribe E (model a) audio_path (options_of a))).
Proof.
  intros Haudios. unfold get_subtitles. apply frames_for_each; [ | constructor ].
  intros [p audio] d Hin Hd.
  apply (proj1 (Forall_forall _ _) Haudios) in Hin. destruct Hin as [Hp ->].
  eapply frames_bind; [ apply frames_run_transcribe | intros segments _ ].
  eapply frames_bind; [ apply frames_emit | intros _ _ ].
  eapply frames_bind; [ apply frames_write_file | intros _ _ ].
  - exists p. split; [ exact Hp | ]. right. left. reflexivity.
  - apply frames_ret. apply dict_set_Forall; [ exact Hd | ]. cbn. auto.
Qed.

Lemma compose_all_frames subtitles :
  srt_only a = false -> Forall (srt_entry E a) subtitles ->
  frames (artifact E a) any
    (compose_all E (output_dir a) (style_of a) subtitles).
Proof.
  intros Hso Hsubs. unfold compose_all.
  apply (frames_for_each _ any); [ | exact I ].
  intros [p srt] [] Hin _.
  apply (proj1 (Forall_forall _ _) Hsubs) in Hin. destruct Hin as [Hp ->].
  apply frames_run_compose. exists p. split; [ exact Hp | ].
  right. right. split; [ exact Hso | reflexivity ].
Qed.

Lemma phases_frames : frames (artifact E a) any (phases E a).
Proof.
  unfold phases.
  eapply frames_bind; [ apply get_audio_frames | intros audios Haudios ].
  eapply frames_bind; [ apply (get_subtitles_frames audios Haudios) | ].
  intros subtitles Hsubs.
  destruct (srt_only a) eqn:Hso.
  - now apply frames_ret.
  - now apply compose_all_frames.
Qed.

End Artifacts.

(** X8: whether it returns or raises, a run removes no file and leaves
    every file alone that is not the audio, the subtitles or (unless
    [srt_only] is set) the composed video of a video of the batch: such a
    file has the content it had before.  In particular a video of the
    batch is written over only if its own path is one of these paths. *)
Theorem run_keeps_other_files E a files :
  (forall q, ~ artifact E a q -> fs (run (main E a) files).2 !! q = files !! q)
  /\ dom files ⊆ dom (fs (run (main E a) files).2).
Proof.
  unfold run. rewrite main_phases.
  destruct (phases_frames E a (World (fs (World files []))
                                 (log (World files []) ++ header a)))
    as (Hfs & Hdom & _).
  split; [ exact Hfs | exact Hdom ].
Qed.
(* ===================================================================== *)
(** * The files a run reads *)
(* ===================================================================== *)

(** Two loops whose bodies agree on the worlds met on the way agree. *)
Lemma for_each_agree {A St} (Inv : world -> Prop) (b1 b2 : A -> St -> M St) l :
  (forall x s w, x ∈ l -> Inv w ->
     b1 x s w = b2 x s w /\ Inv (b2 x s w).2) ->
  forall s w, Inv w -> for_each l b1 s w = for_each l b2 s w.
Proof.
  induction l as [ | x l IH]; intros Hbody s w Hw; cbn; [ reflexivity | ].
  destruct (Hbody x s w) as [Heq Hinv]; [ constructor | exact Hw | ].
  unfold bind. rewrite Heq.
  destruct (b2 x s w) as [[s' | e] w1]; [ | reflexivity ].
  apply IH; [ | exact Hinv ].
  intros y t w2 Hy. apply Hbody. now constructor.
Qed.

Lemma careful_transcribe E model_name audio opts w :
  is_Some (fs w !! audio) ->
  run_transcribe (careful E) model_name audio opts w =
  run_transcribe E model_name audio opts w.
Proof.
  intros [data Hdata].
  unfold run_transcribe, bind, emit, read_fs. cbn. now rewrite Hdata.
Qed.

Lemma careful_compose E path srt style out w :
  is_Some (fs w !! srt) ->
  run_compose (careful E) path srt style out w =
  run_compose E path srt style out w.
Proof.
  intros [data Hdata].
  unfold run_compose, bind, emit, read_fs. cbn. now rewrite Hdata.
Qed.

Lemma subtitle_body_grows E persist dir model_name opts i d w :
  dom (fs w) ⊆
  dom (fs (subtitle_body E persist dir
             (fun audio_path => run_transcribe E model_name audio_path opts)
             i d w).2).
Proof.
  destruct i as [p audio].
  assert (H : frames (fun _ => True) any
                (subtitle_body E persist dir
                   (fun audio_path =>
                      run_transcribe E model_name audio_path opts)
                   (p, audio) d)).
  { unfold subtitle_body.
    eapply frames_bind; [ apply frames_run_transcribe | intros segments _ ].
    eapply frames_bind; [ apply frames_emit | intros _ _ ].
    eapply frames_bind;
      [ apply frames_write_file; exact I | intros _ _ ].
    now apply frames_ret. }
  apply (H w).
Qed.

Lemma compose_body_grows E dir style i u w :
  dom (fs w) ⊆ dom (fs (compose_body E dir style i u w).2).
Proof.
  destruct i as [p srt].
  assert (H : frames (fun _ => True) any
                (compose_body E dir style (p, srt) u)).
  { unfold compose_body. apply frames_run_compose. exact I. }
  apply (H w).
Qed.

Lemma careful_subtitle_loop E persist dir model_name opts audios d w :
  Forall (fun i => i.2 ∈ dom (fs w)) audios ->
  for_each audios
    (subtitle_body (careful E) persist dir
       (fun audio_path =>
          run_transcribe (careful E) model_name audio_path opts)) d w =
  for_each audios
    (subtitle_body E persist dir
       (fun audio_path => run_transcribe E model_name audio_path opts)) d w.
Proof.
  intros Hall.
  apply (for_each_agree (fun w => Forall (fun i => i.2 ∈ dom (fs w)) audios));
    [ | exact Hall ].
  intros [p audio] s w1 Hin Hw1. split.
  - unfold subtitle_body. unfold bind at 1 3.
    rewrite careful_transcribe; [ reflexivity | ].
    apply elem_of_dom.
    apply (proj1 (Forall_forall _ _) Hw1 (p, audio) Hin).
  - eapply Forall_impl; [ exact Hw1 | ].
    intros i Hi. eapply subtitle_body_grows. exact Hi.
Qed.

Lemma careful_compose_loop E dir style subtitles u w :
  Forall (fun i => i.2 ∈ dom (fs w)) subtitles ->
  for_each subtitles (compose_body (careful E) dir style) u w =
  for_each subtitles (compose_body E dir style) u w.
Proof.
  intros Hall.
  apply (for_each_agree
           (fun w => Forall (fun i => i.2 ∈ dom (fs w)) subtitles));
    [ | exact Hall ].
  intros [p srt] s w1 Hin Hw1. split.
  - unfold compose_body. apply careful_compose, elem_of_dom.
    apply (proj1 (Forall_forall _ _) Hw1 (p, srt) Hin).
  - eapply Forall_impl; [ exact Hw1 | ].
    intros i Hi. eapply compose_body_grows. exact Hi.
Qed.

Lemma careful_phases E a w : phases (careful E) a w = phases E a w.
Proof.
  unfold phases.
  change (get_audio (careful E) (video a)) with (get_audio E (video a)).
  unfold bind at 1 3.
  destruct (get_audio E (video a) w) as [[audios | e] w1] eqn:H1;
    [ | reflexivity ].
  rewrite get_audio_loop in H1. apply audio_loop_Return in H1.
  destruct H1 as (-> & _ & Hdom1). fold (audios_of E a).
  rewrite !get_subtitles_loop.
  unfold bind at 1 2.
  rewrite careful_subtitle_loop.
  2:{ apply Forall_forall. intros i Hi.
      assert (Hv : i.2 = audio_path_of E i.1).
      { revert i Hi. apply Forall_forall.
        apply audio_paths_values. constructor. }
      assert (Hk : i.1 ∈ video a).
      { apply (audios_of_keys E a). unfold dict_keys.
        apply list_elem_of_In, in_map, list_elem_of_In, Hi. }
      rewrite Hv, Hdom1. apply elem_of_union_r.
      now apply (elem_of_path_set (audio_path_of E)). }
  match goal with
  | |- context [for_each ?l ?b ?s w1] =>
      destruct (for_each l b s w1) as [[subtitles | e] w2] eqn:H2;
        [ | reflexivity ]
  end.
  apply subtitle_loop_Return in H2. destruct H2 as (-> & _ & Hdom2).
  fold (subs_of E a).
  assert (Hall : Forall (fun i => i.2 ∈ dom (fs w2)) (subs_of E a)).
  { rewrite subs_of_audios. apply Forall_forall. intros i Hi.
    apply list_elem_of_In, in_map_iff in Hi. destruct Hi as (j & <- & Hj).
    cbn. rewrite Hdom2. apply elem_of_union_r.
    apply (elem_of_path_set (fun i => srt_path_of E a i.1)).
    now apply list_elem_of_In. }
  destruct (srt_only a); [ reflexivity | ].
  rewrite !compose_all_loop. now apply careful_compose_loop.
Qed.

(** X9: a run starts a transcription only on an audio file that is there
    and a composition only with a subtitle file that is there, whatever
    was on the disk at the start.  Said with the engines: an engine that
    raises as soon as it is handed the path of a missing audio or subtitle
    file gives the same runs, step for step and file for file. *)
Theorem inputs_are_there_when_read E a files :
  run (main (careful E) a) files = run (main E a) files.
Proof.
  unfold run. rewrite !main_phases. apply careful_phases.
Qed.
(* ===================================================================== *)
(** * The two dictionaries *)
(* ===================================================================== *)

Lemma dict_get_set {V} (d : dict V) k v k' :
  dict_get (dict_set d k v) k' =
  if String.eqb k k' then Some v else dict_get d k'.
Proof.
  induction d as [ | [k0 v0] d IH]; cbn; [ reflexivity | ].
  destruct (String.eqb_spec k0 k) as [-> | Hne]; cbn.
  - destruct (String.eqb k k'); reflexivity.
  - rewrite IH. destruct (String.eqb_spec k0 k') as [-> | Hne'].
    + destruct (String.eqb_spec k k') as [-> | _]; [ congruence | reflexivity ].
    + reflexivity.
Qed.

Lemma dict_get_elem {V} (d : dict V) k v :
  dict_get d k = Some v -> (k, v) ∈ d.
Proof.
  induction d as [ | [k0 v0] d IH]; cbn; [ discriminate | ].
  destruct (String.eqb_spec k0 k) as [-> | Hne].
  - intros [= ->]. constructor.
  - intros H. constructor. now apply IH.
Qed.

Lemma audio_paths_get E paths :
  forall d p,
    dict_get (audio_paths_of E paths d) p =
    if decide (p ∈ paths) then Some (audio_path_of E p) else dict_get d p.
Proof.
  induction paths as [ | q paths IH]; intros d p; cbn.
  - destruct (decide (p ∈ [])) as [Hin | _]; [ inversion Hin | reflexivity ].
  - unfold audio_paths_of in IH. rewrite IH, dict_get_set.
    destruct (decide (p ∈ paths)) as [Hin | Hn];
      destruct (decide (p ∈ q :: paths)) as [Hin' | Hn']; try reflexivity.
    + exfalso. apply Hn'. now constructor.
    + apply elem_of_cons in Hin' as [-> | Hin']; [ | contradiction ].
      now rewrite String.eqb_refl.
    + destruct (String.eqb_spec q p) as [-> | _]; [ | reflexivity ].
      exfalso. apply Hn'. constructor.
Qed.

(** X10: when [get_audio] returns, its dictionary has one entry for each
    distinct path it was given and no other: looking a path up gives the
    temporary directory joined with [<base name>.wav] if the path was in
    the list and nothing otherwise, however often the path was given; and
    every audio file the dictionary names is there. *)
Theorem get_audio_lookup E paths w d w' :
  get_audio E paths w = (Return d, w') ->
  NoDup (dict_keys d)
  /\ (forall p,
        dict_get d p =
        if decide (p ∈ paths)
        then Some (path_join (gettempdir E) (filename p +:+ ".wav"))
        else None)
  /\ (forall p audio, dict_get d p = Some audio -> is_Some (fs w' !! audio)).
Proof.
  intros Hrun. rewrite get_audio_loop in Hrun.
  apply audio_loop_Return in Hrun. destruct Hrun as (-> & _ & Hdom).
  assert (Hget : forall p,
             dict_get (audio_paths_of E paths []) p =
             if decide (p ∈ paths) then Some (audio_path_of E p) else None).
  { intros p. apply audio_paths_get. }
  split; [ | split ].
  - apply audio_paths_keys. constructor.
  - exact Hget.
  - intros p audio Hp. rewrite Hget in Hp.
    destruct (decide (p ∈ paths)) as [Hin | ]; [ | discriminate ].
    injection Hp as <-. apply elem_of_dom. rewrite Hdom.
    apply elem_of_union_r. now apply (elem_of_path_set (audio_path_of E)).
Qed.

(** X10 on a list in which [a.mp4] is given twice. *)
Lemma get_audio_lookup_witness :
  NoDup (dict_keys [("a.mp4", "/tmp/a.wav"); ("b.mp4", "/tmp/b.wav")])
  /\ (forall p,
        dict_get [("a.mp4", "/tmp/a.wav"); ("b.mp4", "/tmp/b.wav")] p =
        if decide (p ∈ ["a.mp4"; "b.mp4"; "a.mp4"])
        then Some (path_join (gettempdir studio) (filename p +:+ ".wav"))
        else None)
  /\ (forall p audio,
        dict_get [("a.mp4", "/tmp/a.wav"); ("b.mp4", "/tmp/b.wav")] p =
          Some audio ->
        is_Some
          (fs (get_audio studio ["a.mp4"; "b.mp4"; "a.mp4"] (World ∅ [])).2
             !! audio)).
Proof.
  apply (get_audio_lookup studio ["a.mp4"; "b.mp4"; "a.mp4"] (World ∅ [])).
  vm_compute. reflexivity.
Defined.

(** ** [get_subtitles] and its transcriber *)

Lemma subtitle_body_step E persist dir transcribe p audio d w segments w1 :
  transcribe audio w = (Return segments, w1) ->
  subtitle_body E persist dir transcribe (p, audio) d w =
    (Return (dict_set d p (srt_path_in E persist dir p)),
     World (<[srt_path_in E persist dir p := write_srt segments]> (fs w1))
           (log w1 ++ [WriteSrt p (srt_path_in E persist dir p)])).
Proof.
  intros Ht. unfold subtitle_body.
  rewrite (bind_Return _ _ _ _ _ Ht). reflexivity.
Qed.

Lemma subtitle_loop_any E persist dir transcribe audios :
  forall d0 w,
    match for_each audios (subtitle_body E persist dir transcribe) d0 w with
    | (Return d, _) => d = subtitles_of E persist dir audios d0
    | (Raise e, w') =>
        exists audio w0,
          audio ∈ map snd audios /\ transcribe audio w0 = (Raise e, w')
    end.
Proof.
  induction audios as [ | [p audio] audios IH]; intros d0 w.
  - reflexivity.
  - cbn [for_each].
    destruct (transcribe audio w) as [[segments | e] w1] eqn:Ht.
    + rewrite (bind_Return _ _ _ _ _
                 (subtitle_body_step E persist dir transcribe p audio d0 w
                    segments w1 Ht)).
      specialize (IH (dict_set d0 p (srt_path_in E persist dir p))
                    (World (<[srt_path_in E persist dir p
                              := write_srt segments]> (fs w1))
                       (log w1 ++ [WriteSrt p (srt_path_in E persist dir p)]))).
      revert IH.
      destruct (for_each audios (subtitle_body E persist dir transcribe)
                  (dict_set d0 p (srt_path_in E persist dir p)) _)
        as [[d | e] w3]; intros IH.
      * exact IH.
      * destruct IH as (audio' & w0 & Hin & Hw0).
        exists audio', w0. split; [ now constructor | exact Hw0 ].
    + assert (Hb : subtitle_body E persist dir transcribe (p, audio) d0 w =
                   (Raise e, w1)).
      { unfold subtitle_body. now rewrite (bind_Raise _ _ _ _ _ Ht). }
      rewrite (bind_Raise _ _ _ _ _ Hb).
      exists audio, w. split; [ constructor | exact Ht ].
Qed.

Lemma for_each_app {A St} (body : A -> St -> M St) l1 l2 :
  forall s w,
    for_each (l1 ++ l2) body s w =
    bind (for_each l1 body s) (fun s' => for_each l2 body s') w.
Proof.
  induction l1 as [ | x l1 IH]; intros s w; cbn [for_each app].
  - reflexivity.
  - unfold bind.
    destruct (body x s w) as [[s' | e] w1]; [ exact (IH s' w1) | reflexivity ].
Qed.

(** X11: [get_subtitles] works with any transcriber it is handed.  Given a
    dictionary (its keys are distinct), what it returns has the same keys
    in the same order, each with the chosen directory joined with
    [<base name>.srt].  And it does not catch what the transcriber raises:
    once the entries before it are done, an exception of the transcriber
    on an entry is the exception of [get_subtitles], which stops there,
    before the subtitle file of that entry is opened and with everything
    as the transcriber left it. *)
Theorem get_subtitles_any_transcriber
    E (audios : dict string) persist dir transcribe w :
  NoDup (dict_keys audios) ->
  (forall d w',
     get_subtitles E audios persist dir transcribe w = (Return d, w') ->
     d = map (fun i =>
                (i.1, path_join (if persist then dir else gettempdir E)
                        (filename i.1 +:+ ".srt")))
           audios)
  /\ (forall done p audio rest d1 w1 e w2,
        audios = done ++ (p, audio) :: rest ->
        get_subtitles E done persist dir transcribe w = (Return d1, w1) ->
        transcribe audio w1 = (Raise e, w2) ->
        get_subtitles E audios persist dir transcribe w = (Raise e, w2)).
Proof.
  intros Hnd. split.
  - intros d w' Hrun. rewrite get_subtitles_loop in Hrun.
    pose proof (subtitle_loop_any E persist dir transcribe audios [] w) as H.
    rewrite Hrun in H. rewrite H. now apply subtitles_of_distinct.
  - intros done p audio rest d1 w1 e w2 -> Hdone Ht.
    rewrite get_subtitles_loop in *.
    rewrite for_each_app, (bind_Return _ _ _ _ _ Hdone). cbn [for_each].
    apply bind_Raise. unfold subtitle_body. now apply bind_Raise.
Qed.

(** X11 on two audio files the second of which cannot be transcribed. *)
Lemma get_subtitles_any_transcriber_witness :
  get_subtitles mute
    [("a.mp4", "/tmp/a.wav"); ("b.mp4", "/tmp/b.wav")] true "out"
    (fun audio => run_transcribe mute "small" audio (options_of three_videos))
    (World ∅ []) =
  (Raise (TranscriptionError "/tmp/b.wav"),
   World {["out/a.srt" :=
             write_srt [Segment 0 (Time 0 1) (Time 5 2) ""]]}
     [Transcribe "/tmp/a.wav" (options_of three_videos);
      WriteSrt "a.mp4" "out/a.srt";
      Transcribe "/tmp/b.wav" (options_of three_videos)]).
Proof.
  destruct (get_subtitles_any_transcriber mute
              [("a.mp4", "/tmp/a.wav"); ("b.mp4", "/tmp/b.wav")] true "out"
              (fun audio =>
                 run_transcribe mute "small" audio (options_of three_videos))
              (World ∅ [])) as [_ Hraise].
  - apply NoDup_cons_2.
    + intros H. apply elem_of_cons in H as [H | H]; [ discriminate | ].
      inversion H.
    + apply NoDup_cons_2; [ intros H; inversion H | apply NoDup_nil_2 ].
  - apply (Hraise [("a.mp4", "/tmp/a.wav")] "b.mp4" "/tmp/b.wav" []
             [("a.mp4", "out/a.srt")]
             (World {["out/a.srt" :=
                        write_srt [Segment 0 (Time 0 1) (Time 5 2) ""]]}
                [Transcribe "/tmp/a.wav" (options_of three_videos);
                 WriteSrt "a.mp4" "out/a.srt"])).
    + reflexivity.
    + vm_compute. reflexivity.
    + vm_compute. reflexivity.
Defined.

(** ** What the subtitle files hold *)



(* ===================================================================== *)
(** * What the composed videos hold *)
(* ===================================================================== *)

Lemma compose_loop_frames E dir style subtitles u :
  frames (fun q => q ∈ map (fun j => out_path_in dir j.1) subtitles) any
    (for_each subtitles (compose_body E dir style) u).
Proof.
  apply (frames_for_each _ any); [ | exact I ].
  intros [p srt] [] Hin _. unfold compose_body. apply frames_run_compose.
  apply list_elem_of_In.
  apply (in_map (fun j => out_path_in dir j.1) _ (p, srt)).
  now apply list_elem_of_In.
Qed.

Lemma compose_loop_content E dir style subtitles :
  forall u w u' w',
    for_each subtitles (compose_body E dir style) u w = (Return u', w') ->
    forall i, i ∈ subtitles ->
      exists j fsys,
        j ∈ subtitles
        /\ out_path_in dir j.1 = out_path_in dir i.1
        /\ fs w' !! out_path_in dir i.1 =
           ffmpeg_subtitles E fsys j.1 j.2 style
        /\ is_Some (fs w' !! out_path_in dir i.1).
Proof.
  induction subtitles as [ | [p srt] subtitles IH]; intros u w u' w' Hrun i Hi.
  - inversion Hi.
  - cbn [for_each] in Hrun.
    unfold bind at 1, compose_body at 1 in Hrun.
    destruct (run_compose_cases E p srt style (out_path_in dir p) w)
      as [(mp4 & Hmp4 & Heq) | (_ & Heq)]; rewrite Heq in Hrun;
      [ | discriminate ].
    destruct (decide (out_path_in dir i.1
                        ∈ map (fun j => out_path_in dir j.1) subtitles))
      as [Hlater | Hlast].
    + apply list_elem_of_In, in_map_iff in Hlater.
      destruct Hlater as (k & Hk & Hin). apply list_elem_of_In in Hin.
      destruct (IH _ _ _ _ Hrun k Hin) as (j & fsys & Hj & Hout & Hfs & Hsome).
      exists j, fsys. rewrite <- Hk.
      split; [ now constructor | ]. split; [ exact Hout | ].
      split; [ exact Hfs | exact Hsome ].
    + assert (Hip : i = (p, srt)).
      { apply elem_of_cons in Hi as [Hi | Hi]; [ exact Hi | ].
        exfalso. apply Hlast. apply list_elem_of_In.
        apply (in_map (fun j => out_path_in dir j.1)).
        now apply list_elem_of_In. }
      subst i. cbn [fst] in *.
      destruct (compose_loop_frames E dir style subtitles tt
                  (World (<[out_path_in dir p := mp4]> (fs w))
                     (log w ++ [Compose p srt style (out_path_in dir p)])))
        as (Hframe & _).
      rewrite Hrun in Hframe. cbn [fs snd] in Hframe.
      exists (p, srt), (fs w). split; [ constructor | ].
      split; [ reflexivity | ]. cbn [fst snd].
      rewrite (Hframe _ Hlast), lookup_insert_eq, Hmp4. eauto.
Qed.

Lemma phases_Return_compose E a w u w' :
  phases E a w = (Return u, w') -> srt_only a = false ->
  exists w2,
    for_each (subs_of E a) (compose_body E (output_dir a) (style_of a)) tt w2
    = (Return u, w').
Proof.
  unfold phases. intros Hrun Hso.
  unfold bind at 1 in Hrun. rewrite get_audio_loop in Hrun.
  destruct (for_each (video a) (audio_body E) [] w) as [[audios | e] w1] eqn:H1;
    [ | discriminate ].
  apply audio_loop_Return in H1. destruct H1 as (-> & _ & _).
  unfold bind at 1 in Hrun. rewrite get_subtitles_loop in Hrun.
  fold (audios_of E a) in Hrun.
  match type of Hrun with
  | context [for_each ?l ?b ?s w1] =>
      destruct (for_each l b s w1) as [[subtitles | e] w2] eqn:H2;
        [ | discriminate ]
  end.
  apply subtitle_loop_Return in H2. destruct H2 as (-> & _ & _).
  fold (subs_of E a) in Hrun. rewrite Hso in Hrun.
  rewrite compose_all_loop in Hrun. eauto.
Qed.

(** X14: in a run in which every call returns and [srt_only] is not set,
    the file left at the output path of a video is what the composition
    produced, for that video or for another one with the same output path,
    from that video and its subtitle file.  Nothing keeps the output path
    apart from the input: a video that lies in the output directory as
    [<base name>.mp4] is written over by its own composition. *)
Theorem output_is_a_composition E a files u w :
  run (main E a) files = (Return u, w) -> srt_only a = false ->
  forall p, p ∈ video a ->
    exists q fsys,
      q ∈ video a
      /\ out_path_of a q = out_path_of a p
      /\ fs w !! out_path_of a p =
         ffmpeg_subtitles E fsys q (srt_path_of E a q) (style_of a)
      /\ is_Some (fs w !! out_path_of a p).
Proof.
  unfold run. rewrite main_phases. intros Hrun Hso p Hp.
  destruct (phases_Return_compose E a _ u w Hrun Hso) as [w2 Hloop].
  destruct (audios_of_keys E a) as [_ Hkeys].
  assert (Hin : (p, srt_path_of E a p) ∈ subs_of E a).
  { rewrite subs_of_audios. apply Hkeys, key_item in Hp.
    destruct Hp as (i & Hi & <-).
    apply list_elem_of_In, in_map_iff. exists i.
    split; [ reflexivity | now apply list_elem_of_In ]. }
  destruct (compose_loop_content _ _ _ _ _ _ _ _ Hloop _ Hin)
    as ([q srt] & fsys & Hj & Hout & Hfs & Hsome).
  cbn [fst snd] in *.
  rewrite subs_of_audios in Hj. apply list_elem_of_In, in_map_iff in Hj.
  destruct Hj as (i & [= <- <-] & Hi).
  exists i.1, fsys. split.
  - apply Hkeys. unfold dict_keys. now apply list_elem_of_In, in_map.
  - split; [ exact Hout | ]. split; [ exact Hfs | exact Hsome ].
Qed.

(** X14 on a video that lies in the output directory: the file at its own
    path is a composition at the end. *)
Lemma output_is_a_composition_witness :
  out_path_of in_place "out/a.mp4" = "out/a.mp4"
  /\ exists q fsys,
      q ∈ video in_place
      /\ out_path_of in_place q = out_path_of in_place "out/a.mp4"
      /\ fs (run (main studio in_place) {["out/a.mp4" := "the video"]}).2
           !! out_path_of in_place "out/a.mp4" =
         ffmpeg_subtitles studio fsys q (srt_path_of studio in_place q)
           (style_of in_place)
      /\ is_Some
           (fs (run (main studio in_place) {["out/a.mp4" := "the video"]}).2
              !! out_path_of in_place "out/a.mp4").
Proof.
  split; [ vm_compute; reflexivity | ].
  apply (output_is_a_composition studio in_place
           {["out/a.mp4" := "the video"]} tt
           (run (main studio in_place) {["out/a.mp4" := "the video"]}).2).
  - vm_compute. reflexivity.
  - reflexivity.
  - repeat constructor.
Defined.
